(** * IntrusiveRefCntPtr: intrusive reference counting (include/IRC.h)

    A shallow embedding of [RefCountedBase] and [IntrusiveRefCntPtr].
    Objects live in a heap keyed by address; handles are C++ objects of
    their own, kept in a store keyed by a name, so that two parameters
    of an operation may denote the same handle.  Every member function
    is a program in a small state-and-failure monad. *)

From Stdlib Require Import ZArith Lia.
From stdpp Require Import gmap list.

Local Open Scope Z_scope.

(** ** Addresses, pointers, outcomes *)

(** The address of a heap-allocated object, and the name of a handle. *)
Abbreviation loc := positive (only parsing).
Abbreviation hid := positive (only parsing).

(** [T*]: either [nullptr] or the address of an object. *)
Abbreviation ptr := (option positive) (only parsing).
Abbreviation nullptr := (@None positive) (only parsing).

(** How a piece of code can end, over a state of type [S]:
    - [Ok a s]: it returns [a] in state [s];
    - [Throw s]: an exception leaves it, in state [s];
    - [Abort]: the process is killed ([assert] failure, [std::terminate]);
    - [Undef]: the behaviour is undefined (an object is used outside
      its lifetime). *)
Inductive outcome (S A : Type) : Type :=
| Ok (a : A) (s : S)
| Throw (s : S)
| Abort
| Undef.
Arguments Ok {S A} a s.
Arguments Throw {S A} s.
Arguments Abort {S A}.
Arguments Undef {S A}.

(** The same ending seen through a change of state. *)
Definition outcome_map {S S' A} (g : S → S') (r : outcome S A) : outcome S' A :=
  match r with
  | Ok a s => Ok a (g s)
  | Throw s => Throw (g s)
  | Abort => Abort
  | Undef => Undef
  end.

(** ** [unsigned] arithmetic *)

(** The width of [unsigned], 32 bits on the usual platforms. *)
Definition UINT_BITS : Z := 32.
Definition UINT_MAX : Z := 2 ^ UINT_BITS - 1.

(** Conversion of a mathematical integer to [unsigned]: reduction
    modulo [2 ^ UINT_BITS]. *)
Definition to_unsigned (z : Z) : Z := z mod 2 ^ UINT_BITS.

(** ** [RefCountedBase<Derived>] *)

(** The mixin's only state is [ref_cnt]; the payload of [Derived] plays
    no part in the operations of this file. *)
Record RefCountedBase : Type := { ref_cnt : Z }.

(** [RefCountedBase() : ref_cnt(0)] *)
Definition RefCountedBase_default : RefCountedBase := {| ref_cnt := 0 |}.

(** [RefCountedBase(const RefCountedBase &) : ref_cnt(0)] *)
Definition RefCountedBase_copy (_ : RefCountedBase) : RefCountedBase :=
  {| ref_cnt := 0 |}.

(** The objects' side of the memory: the objects within their lifetime,
    and the [delete]-expressions evaluated so far, oldest first. *)
Record heap : Type := Heap {
  live : gmap positive RefCountedBase;
  deleted : list positive
}.

(** How the translation unit is compiled: with [NDEBUG] defined, which
    turns [assert] into nothing, or without. *)
Class Build : Type := NDEBUG : bool.

(** A build with [assert] compiled in. *)
Definition checked : Build := false.

Section RefCounted.
Context {build : Build}.

(** [void Retain() const { ++ref_cnt; }] *)
Definition Retain (this : loc) (h : heap) : outcome heap unit :=
  match live h !! this with
  | None => Undef
  | Some o =>
      Ok tt {| live := <[this := {| ref_cnt := to_unsigned (ref_cnt o + 1) |}]> (live h);
               deleted := deleted h |}
  end.

(** [void Release() const {
      assert (ref_cnt > 0 && "Reference count is already zero.");
      if (--ref_cnt == 0) delete static_cast<const Derived*>(this); }] *)
Definition Release (this : loc) (h : heap) : outcome heap unit :=
  match live h !! this with
  | None => Undef
  | Some o =>
      if negb NDEBUG && negb (0 <? ref_cnt o) then Abort
      else
        let c := to_unsigned (ref_cnt o - 1) in
        if c =? 0
        then Ok tt {| live := delete this (live h);
                      deleted := deleted h ++ [this] |}
        else Ok tt {| live := <[this := {| ref_cnt := c |}]> (live h);
                      deleted := deleted h |}
  end.
End RefCounted.

(** ** The machine: objects, handles, and the calls made on objects *)

(** A call made through [IntrusiveRefCntPtrInfo<T>]. *)
Inductive call : Type :=
| CallRetain (obj : positive)
| CallRelease (obj : positive).

(** [objects] is the objects' side of the memory, of a type [W] chosen
    by the counted type; [handles] maps each handle within its lifetime
    to its member [Obj]; [calls] records the calls the handles have made
    on objects, oldest first. *)
Record machine (W : Type) : Type := Machine {
  objects : W;
  handles : gmap positive (option positive);
  calls : list call
}.
Arguments Machine {W} _ _ _.
Arguments objects {W} _.
Arguments handles {W} _.
Arguments calls {W} _.

Definition set_objects {W} (w : W) (m : machine W) : machine W :=
  Machine w (handles m) (calls m).
Definition set_handles {W} (H : gmap positive (option positive)) (m : machine W) : machine W :=
  Machine (objects m) H (calls m).
Definition log_call {W} (c : call) (m : machine W) : machine W :=
  Machine (objects m) (handles m) (calls m ++ [c]).

(** Programs over the machine. *)
Definition M (W A : Type) : Type := machine W → outcome (machine W) A.

Global Instance M_ret {W} : MRet (M W) := λ A a m, Ok a m.
Global Instance M_bind {W} : MBind (M W) := λ A B f x m,
  match x m with
  | Ok a m' => f a m'
  | Throw m' => Throw m'
  | Abort => Abort
  | Undef => Undef
  end.

(** A destructor, like every function declared [noexcept], turns an
    exception that would leave it into [std::terminate]. *)
Definition noexcept {W A} (body : M W A) : M W A := λ m,
  match body m with
  | Throw _ => Abort
  | r => r
  end.

(** ** The lifetime of a handle and the accesses to its member [Obj] *)

Section Store.
Context {W : Type}.

(** Reading [h.Obj]. *)
Definition load (h : hid) : M W ptr := λ m,
  match handles m !! h with
  | Some p => Ok p m
  | None => Undef
  end.

(** [h.Obj = p]. *)
Definition store (h : hid) (p : ptr) : M W unit := λ m,
  match handles m !! h with
  | Some _ => Ok tt (set_handles (<[h := p]> (handles m)) m)
  | None => Undef
  end.

(** The member initialiser [Obj(p)] of a constructor: the handle [h]
    comes into being in storage that holds no other handle. *)
Definition init (h : hid) (p : ptr) : M W unit := λ m,
  match handles m !! h with
  | Some _ => Undef
  | None => Ok tt (set_handles (<[h := p]> (handles m)) m)
  end.

(** The end of the lifetime of [h], once its destructor's body has run. *)
Definition dispose (h : hid) : M W unit := λ m,
  match handles m !! h with
  | Some _ => Ok tt (set_handles (delete h (handles m)) m)
  | None => Undef
  end.

(** A constructor's body that throws leaves no object behind: the
    handle under construction never begins its lifetime. *)
Definition constructing (this : hid) (body : M W unit) : M W unit := λ m,
  match body m with
  | Throw m' => Throw (set_handles (delete this (handles m')) m')
  | r => r
  end.
End Store.

(** ** [IntrusiveRefCntPtrInfo<T>] *)

(** The customisation point through which a handle reaches the counted
    type: any type with these two operations can be held. *)
Class IntrusiveRefCntPtrInfo (W : Type) : Type := {
  Info_retain : positive → W → outcome W unit;
  Info_release : positive → W → outcome W unit
}.

(** The primary template: [obj->Retain()] and [obj->Release()]. *)
Global Instance RefCountedBase_Info {build : Build} : IntrusiveRefCntPtrInfo heap :=
  {| Info_retain := Retain; Info_release := Release |}.

(** A call into the counted type, recorded in [calls]. *)
Definition invoke {W} (c : call) (f : W → outcome W unit) : M W unit := λ m,
  outcome_map (λ w, set_objects w (log_call c m)) (f (objects m)).

(** ** [IntrusiveRefCntPtr<T>] *)

Section IntrusiveRefCntPtr.
Context {W : Type} `{Info : IntrusiveRefCntPtrInfo W}.

(** [void retain() { if (Obj) IntrusiveRefCntPtrInfo<T>::retain(Obj); }] *)
Definition retain (this : hid) : M W unit :=
  Obj ← load this;
  match Obj with
  | Some obj => invoke (CallRetain obj) (Info_retain obj)
  | None => mret tt
  end.

(** [void release() { if (Obj) IntrusiveRefCntPtrInfo<T>::release(Obj); }] *)
Definition release (this : hid) : M W unit :=
  Obj ← load this;
  match Obj with
  | Some obj => invoke (CallRelease obj) (Info_release obj)
  | None => mret tt
  end.

(** [explicit IntrusiveRefCntPtr() : Obj(nullptr) {}] *)
Definition IntrusiveRefCntPtr_default (this : hid) : M W unit :=
  init this nullptr.

(** [IntrusiveRefCntPtr(T* obj) : Obj(obj) { retain(); }] *)
Definition IntrusiveRefCntPtr_raw (this : hid) (obj : ptr) : M W unit :=
  constructing this (init this obj ;; retain this).

(** [IntrusiveRefCntPtr(const IntrusiveRefCntPtr& S) : Obj(S.Obj) { retain(); }] *)
Definition IntrusiveRefCntPtr_copy (this S : hid) : M W unit :=
  constructing this (p ← load S; init this p ;; retain this).

(** [IntrusiveRefCntPtr(IntrusiveRefCntPtr&& S) : Obj(S.Obj) { S.Obj = nullptr; }] *)
Definition IntrusiveRefCntPtr_move (this S : hid) : M W unit :=
  constructing this (p ← load S; init this p ;; store S nullptr).

(** [T* get() const { return Obj; }] *)
Definition get (this : hid) : M W ptr := load this.

(** [template <class X> IntrusiveRefCntPtr(IntrusiveRefCntPtr<X>&& S)
      : Obj(S.get()) { S.Obj = 0; }]
    The conversion from [X*] to [T*] keeps the address. *)
Definition IntrusiveRefCntPtr_move_convert (this S : hid) : M W unit :=
  constructing this (p ← get S; init this p ;; store S nullptr).

(** [template <class X> IntrusiveRefCntPtr(const IntrusiveRefCntPtr<X>& S)
      : Obj(S.get()) { retain(); }] *)
Definition IntrusiveRefCntPtr_copy_convert (this S : hid) : M W unit :=
  constructing this (p ← get S; init this p ;; retain this).

(** [~IntrusiveRefCntPtr() { release(); }] *)
Definition IntrusiveRefCntPtr_dtor (this : hid) : M W unit :=
  noexcept (release this ;; dispose this).

(** [operator bool() const { return Obj; }] *)
Definition operator_bool (this : hid) : M W bool :=
  Obj ← load this;
  mret (if Obj is Some _ then true else false).

(** [void swap(IntrusiveRefCntPtr& other) {
      T* tmp = other.Obj; other.Obj = Obj; Obj = tmp; }] *)
Definition swap (this other : hid) : M W unit :=
  tmp ← load other;
  Obj ← load this;
  store other Obj ;;
  store this tmp.

(** [void reset() { release(); Obj = nullptr; }] *)
Definition reset (this : hid) : M W unit :=
  release this ;;
  store this nullptr.

(** [void resetWithoutRelease() { Obj = 0; }] *)
Definition resetWithoutRelease (this : hid) : M W unit :=
  store this nullptr.

(** [IntrusiveRefCntPtr& operator=(IntrusiveRefCntPtr S) { swap(S); return *this; }]
    The body, for a parameter [S] that the caller has constructed. *)
Definition operator_assign (this S : hid) : M W unit :=
  swap this S.

(** Storage for a temporary: apart from every handle within its
    lifetime and from the handles [a] and [b] that the expression
    names. *)
Definition temporary (a b : hid) (m : machine W) : hid :=
  fresh ({[a; b]} ∪ dom (handles m)).

(** The expression [a = b] for an lvalue [b]: the parameter [S] is
    copy-constructed from [b] in storage of its own, the body runs,
    and [S] is destroyed when the call returns. *)
Definition assign (a b : hid) : M W unit := λ m,
  let S := temporary a b m in
  (IntrusiveRefCntPtr_copy S b ;;
   operator_assign a S ;;
   IntrusiveRefCntPtr_dtor S) m.

(** *** Assignment in the words of the specification *)

(** To take a share in what [p] refers to: nothing for a null pointer. *)
Definition acquire (p : ptr) : M W unit :=
  match p with
  | Some obj => invoke (CallRetain obj) (Info_retain obj)
  | None => mret tt
  end.

(** To give up a share in what [p] refers to. *)
Definition relinquish (p : ptr) : M W unit :=
  match p with
  | Some obj => invoke (CallRelease obj) (Info_release obj)
  | None => mret tt
  end.

(** The calls they record. *)
Definition retained (p : ptr) : list call :=
  match p with Some obj => [CallRetain obj] | None => [] end.
Definition released (p : ptr) : list call :=
  match p with Some obj => [CallRelease obj] | None => [] end.

(** To be compared with [assign]: the replacement is constructed from
    the right-hand side, with the acquire it needs, and only then is
    the current content of [a] given up, by a destructor. *)
Definition assign_spec (a b : hid) : M W unit :=
  new ← load b;
  acquire new ;;
  old ← load a;
  store a new ;;
  noexcept (relinquish old).

(** *** Sequences of handle operations *)

(** One statement of a client: a declaration of a handle [h] by one of
    the constructors, or a member function called on a handle. *)
Inductive op : Type :=
| Default (h : hid)
| FromRaw (h : hid) (obj : ptr)
| Copy (h src : hid)
| CopyConvert (h src : hid)
| Move (h src : hid)
| MoveConvert (h src : hid)
| Assign (a b : hid)
| Swap (a b : hid)
| Reset (a : hid)
| Destroy (a : hid).

Definition exec (o : op) : M W unit :=
  match o with
  | Default h => IntrusiveRefCntPtr_default h
  | FromRaw h obj => IntrusiveRefCntPtr_raw h obj
  | Copy h src => IntrusiveRefCntPtr_copy h src
  | CopyConvert h src => IntrusiveRefCntPtr_copy_convert h src
  | Move h src => IntrusiveRefCntPtr_move h src
  | MoveConvert h src => IntrusiveRefCntPtr_move_convert h src
  | Assign a b => assign a b
  | Swap a b => swap a b
  | Reset a => reset a
  | Destroy a => IntrusiveRefCntPtr_dtor a
  end.

Fixpoint run (ops : list op) : M W unit :=
  match ops with
  | [] => mret tt
  | o :: ops' => exec o ;; run ops'
  end.

(** The operations that end with a call of [release()]. *)
Definition releases (o : op) : bool :=
  match o with
  | Assign _ _ | Reset _ | Destroy _ => true
  | _ => false
  end.
(** *** Assignment from an rvalue and from a raw pointer *)

(** The expression [a = std::move(b)]: the parameter [S] of [operator=]
    is move-constructed from [b]. *)
Definition assign_move (a b : hid) : M W unit := λ m,
  let S := temporary a b m in
  (IntrusiveRefCntPtr_move S b ;;
   operator_assign a S ;;
   IntrusiveRefCntPtr_dtor S) m.

(** The expression [a = p] for a raw pointer [p]: the parameter [S] is
    constructed from [p] by the converting constructor
    [IntrusiveRefCntPtr(T* obj)], which is not [explicit]. *)
Definition assign_raw (a : hid) (p : ptr) : M W unit := λ m,
  let S := temporary a a m in
  (IntrusiveRefCntPtr_raw S p ;;
   operator_assign a S ;;
   IntrusiveRefCntPtr_dtor S) m.

(** *** Access and comparison *)

(** [T* operator->() const { return Obj; }] *)
Definition operator_arrow (this : hid) : M W ptr := load this.

(** [operator==(const IntrusiveRefCntPtr<T>& A, const IntrusiveRefCntPtr<U>& B)
      { return A.get() == B.get(); }] *)
Definition operator_eq (A B : hid) : M W bool :=
  pa ← get A; pb ← get B; mret (bool_decide (pa = pb)).

(** [operator!=(const IntrusiveRefCntPtr<T>& A, const IntrusiveRefCntPtr<U>& B)
      { return A.get() != B.get(); }] *)
Definition operator_ne (A B : hid) : M W bool :=
  pa ← get A; pb ← get B; mret (negb (bool_decide (pa = pb))).

(** [operator==(const IntrusiveRefCntPtr<T>& A, U* B) { return A.get() == B; }] *)
Definition operator_eq_raw (A : hid) (B : ptr) : M W bool :=
  pa ← get A; mret (bool_decide (pa = B)).

(** [operator!=(const IntrusiveRefCntPtr<T>& A, U* B) { return A.get() != B; }] *)
Definition operator_ne_raw (A : hid) (B : ptr) : M W bool :=
  pa ← get A; mret (negb (bool_decide (pa = B))).

(** [operator==(T* A, const IntrusiveRefCntPtr<U>& B) { return A == B.get(); }] *)
Definition raw_operator_eq (A : ptr) (B : hid) : M W bool :=
  pb ← get B; mret (bool_decide (A = pb)).

(** [operator!=(T* A, const IntrusiveRefCntPtr<U>& B) { return A != B.get(); }] *)
Definition raw_operator_ne (A : ptr) (B : hid) : M W bool :=
  pb ← get B; mret (negb (bool_decide (A = pb))).

(** [operator==(std::nullptr_t A, const IntrusiveRefCntPtr<T> &B) { return !B; }] *)
Definition nullptr_operator_eq (B : hid) : M W bool :=
  b ← operator_bool B; mret (negb b).

(** [operator==(const IntrusiveRefCntPtr<T> &A, std::nullptr_t B) { return B == A; }] *)
Definition operator_eq_nullptr (A : hid) : M W bool :=
  nullptr_operator_eq A.

(** [operator!=(std::nullptr_t A, const IntrusiveRefCntPtr<T> &B) { return !(A == B); }] *)
Definition nullptr_operator_ne (B : hid) : M W bool :=
  e ← nullptr_operator_eq B; mret (negb e).

(** [operator!=(const IntrusiveRefCntPtr<T> &A, std::nullptr_t B) { return !(A == B); }] *)
Definition operator_ne_nullptr (A : hid) : M W bool :=
  e ← operator_eq_nullptr A; mret (negb e).
End IntrusiveRefCntPtr.

(** ** Ownership *)

(** [owns obj p]: the pointer [p] refers to [obj], counted as 0 or 1. *)
Definition owns (obj : loc) (p : ptr) : nat :=
  if decide (p = Some obj) then 1%nat else 0%nat.

(** The number of handles whose [Obj] is [obj]. *)
Definition owners (obj : loc) (H : gmap positive (option positive)) : nat :=
  size (filter (λ kv, kv.2 = Some obj) H).

(** What giving up [p] destroys, when it leaves the handles as [H]: the
    object [p] refers to, if no handle is left to own it. *)
Definition last_owner_gone (p : ptr) (H : gmap positive (option positive)) : list positive :=
  match p with
  | Some obj => if decide (owners obj H = 0%nat) then [obj] else []
  | None => []
  end.

(** What one operation [o], which takes the machine from [m] to [m'],
    destroys: the objects [dl], which are those that had an owner and
    are left with none; and if it destroys anything, [o] is one of the
    operations that release, it destroys one object, and the last call
    it made is the release of that object. *)
Definition destroys_last_owned (o : op) (m m' : machine heap) : Prop :=
  ∃ dl, deleted (objects m') = deleted (objects m) ++ dl ∧
    (∀ l, l ∈ dl ↔
       (0 < owners l (handles m))%nat ∧ owners l (handles m') = 0%nat) ∧
    (dl ≠ [] →
       releases o = true ∧
       ∃ l, dl = [l] ∧ last (calls m') = Some (CallRelease l)).

(** A machine whose only object [O] has just been created by [new] and
    is known to no handle. *)
Definition fresh_object (O : loc) : machine heap :=
  Machine (Heap {[ O := RefCountedBase_default ]} []) ∅ [].

(** [T& operator*() const { return *Obj; }]: the indirection is defined
    only through a pointer to an object within its lifetime. *)
Definition indirection (Obj : ptr) : M heap positive := λ m,
  match Obj with
  | Some obj =>
      match live (objects m) !! obj with
      | Some _ => Ok obj m
      | None => Undef
      end
  | None => Undef
  end.
Definition operator_star (this : hid) : M heap positive :=
  Obj ← load this; indirection Obj.

(** A machine whose objects, at the addresses [U], have all just been
    created by [new] and are known to no handle. *)
Definition fresh_objects (U : gset positive) : machine heap :=
  Machine (Heap (gset_to_gmap RefCountedBase_default U) []) ∅ [].


(** The pointer in which the operation [o] takes a share when it runs
    from the machine [m]: the constructor from a raw pointer, the two
    copy constructors and assignment, for its parameter, retain what
    they are given; no other operation retains. *)
Definition acquired (o : op) (m : machine heap) : ptr :=
  match o with
  | FromRaw _ obj => obj
  | Copy _ src | CopyConvert _ src | Assign _ src => default None (handles m !! src)
  | _ => None
  end.

(** The most handles that refer to [obj] at a time while [o] runs from
    [m]: those that do before, and the one that [o] constructs on it,
    be it the parameter of an assignment. *)
Definition peak_owners (obj : loc) (o : op) (m : machine heap) : nat :=
  (owners obj (handles m) + owns obj (acquired o m))%nat.

(** The storage in which an operation constructs a handle. *)
Definition constructs (o : op) : gset positive :=
  match o with
  | Default h | FromRaw h _ | Copy h _ | CopyConvert h _ | Move h _
  | MoveConvert h _ => {[ h ]}
  | _ => ∅
  end.

(** A machine with one object, at address 7 and with counter [c], a
    handle 1 that refers to it and a null handle 2. *)
Definition example_machine (c : Z) : machine heap :=
  Machine (Heap {[ 7%positive := {| ref_cnt := c |} ]} [])
          {[ 1%positive := Some 7%positive; 2%positive := None ]} [].


(** [n] times over: the handle 1 is copied into the handle 2, which is
    destroyed. *)
Fixpoint churn (n : nat) : list op :=
  match n with
  | O => []
  | S n' => Copy 2%positive 1%positive :: Destroy 2%positive :: churn n'
  end.

(** The bookkeeping that the handles maintain over the objects of [U]:
    a live object's counter is the number of handles that refer to it,
    and it has been retained if and only if some handle refers to it;
    an object that is gone is referred to by none; [deleted] lists the
    objects that are gone, each once. *)
Record counted (U : gset positive) (m : machine heap) : Prop := {
  counted_live : ∀ l o, live (objects m) !! l = Some o →
    l ∈ U ∧
    ref_cnt o = Z.of_nat (owners l (handles m)) ∧
    (CallRetain l ∈ calls m ↔ (0 < owners l (handles m))%nat) ∧
    l ∉ deleted (objects m);
  counted_gone : ∀ l, live (objects m) !! l = None →
    owners l (handles m) = 0%nat ∧ (l ∈ U → l ∈ deleted (objects m));
  counted_deleted : ∀ l, l ∈ deleted (objects m) →
    l ∈ U ∧ CallRetain l ∈ calls m;
  counted_once : NoDup (deleted (objects m))
}.

(** * Properties *)

(** ** Running programs *)

Section Running.
Context {W : Type}.
Implicit Types (m : machine W) (h : hid) (p : ptr).

Lemma machine_eta m : Machine (objects m) (handles m) (calls m) = m.
Proof. by destruct m. Qed.

Lemma bind_Ok {A B} (x : M W A) (f : A → M W B) m a m' :
  x m = Ok a m' → (x ≫= f) m = f a m'.
Proof. unfold mbind, M_bind. by intros ->. Qed.

Lemma bind_Ok_inv {A B} (x : M W A) (f : A → M W B) m b m' :
  (x ≫= f) m = Ok b m' → ∃ a m1, x m = Ok a m1 ∧ f a m1 = Ok b m'.
Proof. unfold mbind, M_bind. destruct (x m); naive_solver. Qed.

Lemma load_Ok h p m : handles m !! h = Some p → load h m = Ok p m.
Proof. unfold load. by intros ->. Qed.

Lemma store_Ok h p q m :
  handles m !! h = Some q →
  store h p m = Ok tt (set_handles (<[h := p]> (handles m)) m).
Proof. unfold store. by intros ->. Qed.

Lemma init_Ok h p m :
  handles m !! h = None →
  init h p m = Ok tt (set_handles (<[h := p]> (handles m)) m).
Proof. unfold init. by intros ->. Qed.

Lemma dispose_Ok h q m :
  handles m !! h = Some q →
  dispose h m = Ok tt (set_handles (delete h (handles m)) m).
Proof. unfold dispose. by intros ->. Qed.

Lemma constructing_Ok h (body : M W unit) m m' :
  body m = Ok tt m' → constructing h body m = Ok tt m'.
Proof. unfold constructing. by intros ->. Qed.

Lemma noexcept_Ok {A} (body : M W A) m a m' :
  body m = Ok a m' → noexcept body m = Ok a m'.
Proof. unfold noexcept. by intros ->. Qed.

Lemma invoke_Ok c (f : W → outcome W unit) m w :
  f (objects m) = Ok tt w → invoke c f m = Ok tt (set_objects w (log_call c m)).
Proof. unfold invoke. by intros ->. Qed.

(** A call into the counted type does not see the handles. *)
Lemma invoke_frame c (f : W → outcome W unit) H m :
  invoke c f (set_handles H m) = outcome_map (set_handles H) (invoke c f m).
Proof. unfold invoke. simpl. by destruct (f (objects m)). Qed.

Lemma invoke_handles c (f : W → outcome W unit) m r :
  invoke c f m = r →
  match r with
  | Ok _ m' | Throw m' => handles m' = handles m
  | _ => True
  end.
Proof. unfold invoke. intros <-. by destruct (f (objects m)). Qed.
End Running.

(** Symbolic execution of one primitive whose precondition is at hand. *)
Ltac prim :=
  first [ eapply load_Ok | eapply store_Ok | eapply init_Ok | eapply dispose_Ok ];
  simpl; simplify_map_eq; done.
Ltac steps := repeat (erewrite bind_Ok by prim).

Section Equations.
Context {W : Type} `{Info : IntrusiveRefCntPtrInfo W}.
Implicit Types (m : machine W) (h : hid) (p : ptr).

Lemma bind_unfold {A B} (x : M W A) (f : A → M W B) m :
  (x ≫= f) m =
  match x m with
  | Ok a m' => f a m'
  | Throw m' => Throw m'
  | Abort => Abort
  | Undef => Undef
  end.
Proof. done. Qed.

Lemma retain_eq h p m : handles m !! h = Some p → retain h m = acquire p m.
Proof. intros Hh. unfold retain. by steps. Qed.

Lemma release_eq h p m : handles m !! h = Some p → release h m = relinquish p m.
Proof. intros Hh. unfold release. by steps. Qed.

Lemma acquire_frame p H m :
  acquire p (set_handles H m) = outcome_map (set_handles H) (acquire p m).
Proof. destruct p; [apply invoke_frame|done]. Qed.

Lemma relinquish_frame p H m :
  relinquish p (set_handles H m) = outcome_map (set_handles H) (relinquish p m).
Proof. destruct p; [apply invoke_frame|done]. Qed.

Lemma acquire_handles p m r :
  acquire p m = r →
  match r with Ok _ m' | Throw m' => handles m' = handles m | _ => True end.
Proof. destruct p; [apply invoke_handles|by intros <-]. Qed.

Lemma relinquish_handles p m r :
  relinquish p m = r →
  match r with Ok _ m' | Throw m' => handles m' = handles m | _ => True end.
Proof. destruct p; [apply invoke_handles|by intros <-]. Qed.

(** A constructor that stores [p] and retains: the handle is there
    once the share is taken, and not at all when taking it throws. *)
Lemma ctor_acquire h p m :
  handles m !! h = None →
  constructing h (init h p ;; retain h) m =
  match acquire p m with
  | Ok _ m' => Ok tt (set_handles (<[h := p]> (handles m)) m')
  | r => r
  end.
Proof.
  intros Hh. unfold constructing. steps.
  rewrite (retain_eq _ p) by (simpl; by simplify_map_eq).
  rewrite acquire_frame.
  pose proof (acquire_handles p m _ eq_refl) as Hm.
  destruct (acquire p m) as [[] m'|m'| |]; simpl; try done.
  f_equal. rewrite delete_insert_eq, delete_id by done.
  unfold set_handles. simpl. rewrite <- Hm. apply machine_eta.
Qed.

Lemma raw_eq h p m :
  handles m !! h = None →
  IntrusiveRefCntPtr_raw h p m =
  match acquire p m with
  | Ok _ m' => Ok tt (set_handles (<[h := p]> (handles m)) m')
  | r => r
  end.
Proof. apply ctor_acquire. Qed.

Lemma copy_eq h S p m :
  handles m !! h = None → handles m !! S = Some p →
  IntrusiveRefCntPtr_copy h S m =
  match acquire p m with
  | Ok _ m' => Ok tt (set_handles (<[h := p]> (handles m)) m')
  | r => r
  end.
Proof.
  intros Hh HS. rewrite <- ctor_acquire by done.
  unfold IntrusiveRefCntPtr_copy, constructing. by steps.
Qed.

Lemma dtor_eq h p m :
  handles m !! h = Some p →
  IntrusiveRefCntPtr_dtor h m =
  match relinquish p m with
  | Ok _ m' => Ok tt (set_handles (delete h (handles m)) m')
  | Throw _ => Abort
  | r => r
  end.
Proof.
  intros Hh. unfold IntrusiveRefCntPtr_dtor, noexcept. rewrite bind_unfold.
  rewrite (release_eq _ p) by done.
  pose proof (relinquish_handles p m _ eq_refl) as Hm.
  destruct (relinquish p m) as [[] m'|m'| |]; try done.
  erewrite dispose_Ok by (by rewrite Hm). by rewrite Hm.
Qed.

Lemma reset_eq h p m :
  handles m !! h = Some p →
  reset h m =
  match relinquish p m with
  | Ok _ m' => Ok tt (set_handles (<[h := None]> (handles m)) m')
  | r => r
  end.
Proof.
  intros Hh. unfold reset. rewrite bind_unfold.
  rewrite (release_eq _ p) by done.
  pose proof (relinquish_handles p m _ eq_refl) as Hm.
  destruct (relinquish p m) as [[] m'|m'| |]; try done.
  erewrite store_Ok by (by rewrite Hm). by rewrite Hm.
Qed.

Lemma swap_eq a b pa pb m :
  handles m !! a = Some pa → handles m !! b = Some pb →
  swap a b m = Ok tt (set_handles (<[a := pb]> (<[b := pa]> (handles m))) m).
Proof.
  intros Ha Hb. unfold swap. steps.
  assert (is_Some (<[b := pa]> (handles m) !! a)) as [q Hq].
  { destruct (decide (b = a)) as [->|]; simplify_map_eq; eauto. }
  by erewrite store_Ok.
Qed.

Lemma move_eq h S p m :
  handles m !! h = None → handles m !! S = Some p →
  IntrusiveRefCntPtr_move h S m =
  Ok tt (set_handles (<[S := None]> (<[h := p]> (handles m))) m).
Proof.
  intros Hh HS. assert (h ≠ S) by congruence.
  unfold IntrusiveRefCntPtr_move. apply constructing_Ok. steps.
  by erewrite store_Ok by (simpl; by simplify_map_eq).
Qed.

Lemma temporary_fresh a b m :
  handles m !! temporary a b m = None ∧
  a ≠ temporary a b m ∧ b ≠ temporary a b m.
Proof.
  pose proof (is_fresh ({[a; b]} ∪ dom (handles m))) as Hf.
  fold (temporary a b m) in Hf. rewrite <- not_elem_of_dom. set_solver.
Qed.

Lemma temporary_gone (H : gmap positive (option positive)) S a p q r :
  H !! S = None → a ≠ S →
  delete S (<[a := p]> (<[S := q]> (<[S := r]> H))) = <[a := p]> H.
Proof.
  intros HS Ha. rewrite delete_insert_ne by done.
  by rewrite insert_insert_eq, delete_insert_eq, delete_id.
Qed.

Lemma assign_eq a b pa pb m :
  handles m !! a = Some pa → handles m !! b = Some pb →
  assign a b m = assign_spec a b m.
Proof.
  intros Ha Hb. unfold assign, assign_spec, operator_assign.
  destruct (temporary_fresh a b m) as (HS & ? & _).
  set (S := temporary a b m) in *.
  rewrite (bind_Ok (load b) _ m pb m) by prim.
  rewrite (bind_unfold (IntrusiveRefCntPtr_copy S b)), (bind_unfold (acquire pb)).
  rewrite (copy_eq _ _ pb) by done.
  pose proof (acquire_handles pb m _ eq_refl) as Hm.
  destruct (acquire pb m) as [[] m1|m1| |]; try done.
  assert (handles m1 !! a = Some pa) by (by rewrite Hm).
  rewrite (bind_Ok (load a) _ m1 pa m1) by prim.
  erewrite (bind_Ok (swap a S)); last first.
  { eapply swap_eq; simpl; by simplify_map_eq. }
  simpl. rewrite (dtor_eq _ pa) by (simpl; by simplify_map_eq).
  erewrite (bind_Ok (store a pb)) by prim. unfold noexcept.
  rewrite !relinquish_frame. simpl. rewrite Hm.
  destruct (relinquish pa m1) as [[] m2|m2| |]; simpl; try done.
  by rewrite temporary_gone.
Qed.
End Equations.

(** ** The operations that neither acquire nor release *)

(** C7. For handles [a] and [b] within their lifetime, [a.swap(b)]
    returns with the two stored references exchanged ([a] holds what [b]
    held and conversely, also when [a] and [b] are the same handle),
    every other handle as it was, the objects (so both counters)
    unchanged, and no call of retain or release made. *)
Theorem swap_exchanges {W} (a b : hid) (pa pb : ptr) (m : machine W) :
  handles m !! a = Some pa → handles m !! b = Some pb →
  ∃ m', swap a b m = Ok tt m' ∧
    handles m' !! a = Some pb ∧ handles m' !! b = Some pa ∧
    (∀ h, h ≠ a → h ≠ b → handles m' !! h = handles m !! h) ∧
    objects m' = objects m ∧ calls m' = calls m.
Proof.
  intros Ha Hb. eexists. split.
  - unfold swap. steps. eapply store_Ok. simpl.
    destruct (decide (b = a)) as [->|]; simplify_map_eq; eauto.
  - simpl. repeat split.
    + by simplify_map_eq.
    + destruct (decide (a = b)); by simplify_map_eq.
    + intros. by simplify_map_eq.
Qed.

(** C8. For a handle [a] within its lifetime, [a.resetWithoutRelease()]
    returns with [a] null (its [bool] conversion is false), every other
    handle as it was, the objects unchanged (the referenced object keeps
    its counter and is not destroyed), and no call of release made. *)
Theorem resetWithoutRelease_keeps_count {W} (a : hid) (p : ptr) (m : machine W) :
  handles m !! a = Some p →
  ∃ m', resetWithoutRelease a m = Ok tt m' ∧
    get a m' = Ok None m' ∧ operator_bool a m' = Ok false m' ∧
    (∀ h, h ≠ a → handles m' !! h = handles m !! h) ∧
    objects m' = objects m ∧ calls m' = calls m.
Proof.
  intros Ha. eexists. split; [by eapply store_Ok|].
  unfold get, operator_bool. steps. repeat split.
  - prim.
  - intros. simpl. by simplify_map_eq.
Qed.

(** C5. Move construction, by the same-type or by the converting
    constructor, of a handle [this] from a handle [S]: the new handle
    holds what [S] held, [S] is left null (its [bool] conversion is
    false), every other handle is as it was, the objects (so every
    counter) are unchanged, and no call of retain or release is made. *)
Theorem move_transfers {W} (this S : hid) (p : ptr) (m : machine W) :
  handles m !! S = Some p → handles m !! this = None →
  ∀ ctor, ctor = IntrusiveRefCntPtr_move ∨ ctor = IntrusiveRefCntPtr_move_convert →
  ∃ m', ctor this S m = Ok tt m' ∧
    get this m' = Ok p m' ∧
    get S m' = Ok None m' ∧ operator_bool S m' = Ok false m' ∧
    (∀ h, h ≠ this → h ≠ S → handles m' !! h = handles m !! h) ∧
    objects m' = objects m ∧ calls m' = calls m.
Proof.
  intros HS Hthis ctor Hctor.
  assert (this ≠ S) by congruence.
  assert (ctor = IntrusiveRefCntPtr_move) as -> by (by destruct Hctor).
  eexists. split.
  - unfold IntrusiveRefCntPtr_move. apply constructing_Ok. steps. prim.
  - unfold get, operator_bool. steps. repeat split.
    + prim.
    + prim.
    + intros. simpl. by simplify_map_eq.
Qed.

(** ** [reset] *)

(** C10. On a null handle [reset()] returns with the machine exactly as
    it was: nothing is released and no call is recorded.  On every
    machine, two calls of [reset()] in a row end exactly as one call
    does: same outcome, and on return the same objects, handles and
    recorded calls. *)
Theorem reset_idempotent {W} `{Info : IntrusiveRefCntPtrInfo W}
    (a : hid) (m : machine W) :
  (handles m !! a = Some None → reset a m = Ok tt m) ∧
  (reset a ;; reset a) m = reset a m.
Proof.
  assert (Hnull : ∀ m0 : machine W, handles m0 !! a = Some None → reset a m0 = Ok tt m0).
  { intros m0 H0. rewrite (reset_eq _ None) by done. simpl.
    rewrite insert_id by done. unfold set_handles. by rewrite machine_eta. }
  split; [apply Hnull|].
  destruct (reset a m) as [[] m1| | |] eqn:Hr;
    [|unfold mbind, M_bind; by rewrite Hr ..].
  rewrite (bind_Ok _ _ _ _ _ Hr). apply Hnull.
  unfold reset in Hr. apply bind_Ok_inv in Hr as ([] & m2 & _ & Hst).
  unfold store in Hst. destruct (handles m2 !! a); simplify_eq.
  simpl. by simplify_map_eq.
Qed.

(** ** [RefCountedBase] *)

Lemma to_unsigned_id z : 0 ≤ z ≤ UINT_MAX → to_unsigned z = z.
Proof. unfold to_unsigned, UINT_MAX. intros. apply Z.mod_small. lia. Qed.

Section RefCountedBase_facts.
Context {build : Build}.
Implicit Types (h : heap) (l : loc).

Lemma Retain_live l o h :
  live h !! l = Some o →
  Retain l h =
    Ok tt (Heap (<[l := {| ref_cnt := to_unsigned (ref_cnt o + 1) |}]> (live h))
                (deleted h)).
Proof. unfold Retain. by intros ->. Qed.

Lemma Release_last l o h :
  live h !! l = Some o → ref_cnt o = 1 →
  Release l h = Ok tt (Heap (delete l (live h)) (deleted h ++ [l])).
Proof.
  unfold Release. intros -> ->. simpl. by rewrite andb_false_r.
Qed.

Lemma Release_shared l o h :
  live h !! l = Some o → 1 < ref_cnt o ≤ UINT_MAX →
  Release l h =
    Ok tt (Heap (<[l := {| ref_cnt := ref_cnt o - 1 |}]> (live h)) (deleted h)).
Proof.
  unfold Release. intros -> Hc.
  rewrite to_unsigned_id by lia.
  destruct (Z.ltb_spec 0 (ref_cnt o)); [|lia]. rewrite andb_false_r.
  by destruct (Z.eqb_spec (ref_cnt o - 1) 0); [lia|].
Qed.

Lemma Release_zero l o h :
  live h !! l = Some o → ref_cnt o = 0 → NDEBUG = false →
  Release l h = Abort.
Proof. unfold Release. by intros -> -> ->. Qed.
End RefCountedBase_facts.

(** C2. For a live object whose counter [c] is an [unsigned] value:
    when [c > 0], [Release()] returns, and either [c - 1 = 0] and the
    object has been destroyed (it is no longer live and one [delete] of
    it has been recorded), or [c - 1 ≠ 0] and the object is live with
    counter [c - 1] and nothing has been destroyed; no other object is
    touched.  When [c = 0] and [assert] is compiled in, [Release()] ends
    in [Abort], neither a return nor an exception. *)
Theorem Release_decrements {build : Build} (this : loc) (c : Z) (h : heap) :
  live h !! this = Some {| ref_cnt := c |} → 0 ≤ c ≤ UINT_MAX →
  (0 < c →
   ∃ h', Release this h = Ok tt h' ∧
     (c - 1 = 0 → live h' !! this = None ∧ deleted h' = deleted h ++ [this]) ∧
     (c - 1 ≠ 0 →
        live h' !! this = Some {| ref_cnt := c - 1 |} ∧ deleted h' = deleted h) ∧
     (∀ l, l ≠ this → live h' !! l = live h !! l)) ∧
  (c = 0 → NDEBUG = false → Release this h = Abort).
Proof.
  intros Hl Hc. split.
  - intros Hpos. destruct (decide (c = 1)) as [->|Hne].
    + eexists. split; [by eapply Release_last|]. simpl.
      repeat split; intros; try lia; by simplify_map_eq.
    + eexists. split; [eapply Release_shared; [done|simpl; lia]|]. simpl.
      repeat split; intros; try lia; by simplify_map_eq.
  - intros -> Hb. by eapply Release_zero.
Qed.

(** ** Construction from a raw pointer *)

(** C3 (as amended). Construction of a handle [this] from a raw
    pointer.  From a pointer to a live object whose counter [c] is an
    [unsigned] below [UINT_MAX]: the constructor returns, the handle
    holds that pointer and is non-null, exactly one call has been made,
    a retain on that object, and the object's counter is [c + 1];
    nothing else changes.  From a null pointer: the handle is null, no
    call has been made and the objects are unchanged. *)
Theorem raw_constructor_acquires_once {build : Build} (this : hid) (m : machine heap) :
  handles m !! this = None →
  (∀ obj c, live (objects m) !! obj = Some {| ref_cnt := c |} →
     0 ≤ c < UINT_MAX →
     ∃ m', IntrusiveRefCntPtr_raw this (Some obj) m = Ok tt m' ∧
       get this m' = Ok (Some obj) m' ∧ operator_bool this m' = Ok true m' ∧
       calls m' = calls m ++ [CallRetain obj] ∧
       live (objects m') !! obj = Some {| ref_cnt := c + 1 |} ∧
       (∀ l, l ≠ obj → live (objects m') !! l = live (objects m) !! l) ∧
       deleted (objects m') = deleted (objects m) ∧
       (∀ h, h ≠ this → handles m' !! h = handles m !! h)) ∧
  (∃ m', IntrusiveRefCntPtr_raw this None m = Ok tt m' ∧
     get this m' = Ok None m' ∧ operator_bool this m' = Ok false m' ∧
     calls m' = calls m ∧ objects m' = objects m ∧
     (∀ h, h ≠ this → handles m' !! h = handles m !! h)).
Proof.
  intros Hthis. split.
  - intros obj c Hobj Hc. eexists. split.
    + unfold IntrusiveRefCntPtr_raw. apply constructing_Ok. steps.
      rewrite (retain_eq _ (Some obj)) by (simpl; by simplify_map_eq).
      apply invoke_Ok. simpl. by eapply Retain_live.
    + unfold get, operator_bool. steps. simpl.
      rewrite (to_unsigned_id (c + 1)) by lia.
      repeat split; intros; try prim; simpl; by simplify_map_eq.
  - eexists. split.
    + unfold IntrusiveRefCntPtr_raw. apply constructing_Ok. steps.
      by rewrite (retain_eq _ None) by (simpl; by simplify_map_eq).
    + unfold get, operator_bool. steps.
      repeat split; intros; try prim; simpl; by simplify_map_eq.
Qed.

(** ** Assignment *)

Section Assignment.
Context {W : Type} `{Info : IntrusiveRefCntPtrInfo W}.
Implicit Types (m : machine W) (h : hid) (p : ptr).

Lemma acquire_calls p m m' :
  acquire p m = Ok tt m' → calls m' = calls m ++ retained p.
Proof.
  destruct p; simpl.
  - unfold invoke. destruct (Info_retain _ _); naive_solver.
  - intros [= <-]. by rewrite app_nil_r.
Qed.

Lemma relinquish_calls p m m' :
  relinquish p m = Ok tt m' → calls m' = calls m ++ released p.
Proof.
  destruct p; simpl.
  - unfold invoke. destruct (Info_release _ _); naive_solver.
  - intros [= <-]. by rewrite app_nil_r.
Qed.
End Assignment.

(** C6. For handles [a] and [b] within their lifetime, with [S] the
    storage of the by-value parameter: the assignment [a = b] ends
    exactly as the specification's wording of it does (the replacement
    is constructed from [b], then [a]'s former content is given up by a
    destructor); when it returns, [a] holds what [b] held, every other
    handle is as it was, the temporary is gone, and the calls made are
    the acquire for [b]'s object followed by the release of [a]'s former
    object; and when the construction of the parameter does not return,
    the assignment ends the same way, and if that is by an exception,
    no handle has been changed. *)
Theorem assign_copy_and_swap {W} `{Info : IntrusiveRefCntPtrInfo W}
    (a b : hid) (pa pb : ptr) (m : machine W) :
  handles m !! a = Some pa → handles m !! b = Some pb →
  assign a b m = assign_spec a b m ∧
  (∀ m', assign a b m = Ok tt m' →
     handles m' = <[a := pb]> (handles m) ∧
     calls m' = calls m ++ retained pb ++ released pa) ∧
  (∀ r, IntrusiveRefCntPtr_copy (temporary a b m) b m = r →
     (∀ m', r ≠ Ok tt m') →
     assign a b m = r ∧ ∀ m', r = Throw m' → handles m' = handles m).
Proof.
  intros Ha Hb. split; [by eapply assign_eq|]. split.
  - intros m'. rewrite (assign_eq _ _ pa pb) by done. unfold assign_spec.
    rewrite (bind_Ok (load b) _ m pb m) by prim.
    intros ([] & m1 & Hacq & Hrest)%bind_Ok_inv.
    pose proof (acquire_handles _ _ _ Hacq) as Hm1. simpl in Hm1.
    rewrite (bind_Ok (load a) _ m1 pa m1) in Hrest by (apply load_Ok; by rewrite Hm1).
    erewrite (bind_Ok (store a pb)) in Hrest by (eapply store_Ok; by rewrite Hm1).
    unfold noexcept in Hrest. rewrite relinquish_frame in Hrest.
    destruct (relinquish pa m1) as [[] m2| | |] eqn:Hrel; simplify_eq/=.
    pose proof (relinquish_handles _ _ _ Hrel) as Hm2. simpl in Hm2.
    rewrite (relinquish_calls _ _ _ Hrel), (acquire_calls _ _ _ Hacq), Hm1.
    by rewrite <- app_assoc.
  - intros r Hr Hfail. unfold assign. rewrite bind_unfold, Hr.
    destruct (temporary_fresh a b m) as (HS & _ & _).
    rewrite (copy_eq _ _ pb) in Hr by done.
    pose proof (acquire_handles pb m _ eq_refl) as Hm.
    destruct (acquire pb m) as [[] m1|m1| |]; subst r; try done.
    + by destruct (Hfail _ eq_refl).
    + split; [done|]. by intros m' [= <-].
Qed.

(** ** Copies *)

Lemma heap_eta (h : heap) : Heap (live h) (deleted h) = h.
Proof. by destruct h. Qed.

(** A [Retain()] followed by a [Release()] of the same object gives
    back the heap it started from, as long as the counter does not wrap
    around into the [assert]. *)
Lemma Retain_Release {build : Build} (l : loc) (c : Z) (h : heap) :
  live h !! l = Some {| ref_cnt := c |} →
  0 < c ≤ UINT_MAX → c < UINT_MAX ∨ NDEBUG = true →
  ∃ h1, Retain l h = Ok tt h1 ∧ Release l h1 = Ok tt h.
Proof.
  intros Hl Hc Hmax. eexists. split; [by eapply Retain_live|].
  unfold Release. simpl. rewrite lookup_insert_eq. simpl.
  destruct (decide (c = UINT_MAX)) as [->|].
  - destruct Hmax as [?| ->]; [lia|]. vm_compute to_unsigned. simpl.
    by rewrite insert_insert_eq, (insert_id _ _ _ Hl), heap_eta.
  - rewrite (to_unsigned_id (c + 1)) by lia.
    replace (c + 1 - 1) with c by lia. rewrite to_unsigned_id by lia.
    destruct (Z.ltb_spec 0 (c + 1)); [|lia]. rewrite andb_false_r.
    destruct (Z.eqb_spec c 0); [lia|].
    by rewrite insert_insert_eq, (insert_id _ _ _ Hl), heap_eta.
Qed.

(** C4 (as amended). For a handle [S] that refers to a live object
    whose counter [c] counts at least that handle ([0 < c]) and is
    below [UINT_MAX] unless [assert] is compiled out: copy-constructing
    [this] from [S] returns with both handles referring to the object,
    its counter incremented by one ([c + 1] below [UINT_MAX]) and one
    retain recorded; destroying the copy then returns with the counter
    back at [c], the object not destroyed, and the objects and the
    handles exactly as they were before the copy. *)
Theorem copy_then_destroy {build : Build} (this S : hid) (obj : loc) (c : Z)
    (m : machine heap) :
  handles m !! S = Some (Some obj) → handles m !! this = None →
  live (objects m) !! obj = Some {| ref_cnt := c |} →
  0 < c ≤ UINT_MAX → c < UINT_MAX ∨ NDEBUG = true →
  ∃ m1, IntrusiveRefCntPtr_copy this S m = Ok tt m1 ∧
    get this m1 = Ok (Some obj) m1 ∧ get S m1 = Ok (Some obj) m1 ∧
    live (objects m1) !! obj = Some {| ref_cnt := to_unsigned (c + 1) |} ∧
    (c < UINT_MAX → to_unsigned (c + 1) = c + 1) ∧
    calls m1 = calls m ++ [CallRetain obj] ∧
    ∃ m2, IntrusiveRefCntPtr_dtor this m1 = Ok tt m2 ∧
      live (objects m2) !! obj = Some {| ref_cnt := c |} ∧
      objects m2 = objects m ∧ handles m2 = handles m ∧
      calls m2 = calls m ++ [CallRetain obj; CallRelease obj].
Proof.
  intros HS Hthis Hobj Hc Hmax. assert (this ≠ S) by congruence.
  destruct (Retain_Release obj c (objects m)) as (h1 & Hret & Hrel); [done..|].
  pose proof Hret as Hh1. rewrite (Retain_live _ _ _ Hobj) in Hh1.
  injection Hh1 as Hh1.
  exists (Machine h1 (<[this := Some obj]> (handles m)) (calls m ++ [CallRetain obj])).
  split.
  { rewrite (copy_eq _ _ (Some obj)) by done. simpl.
    by erewrite invoke_Ok by done. }
  unfold get. repeat split; try prim.
  - rewrite <- Hh1. simpl. by rewrite lookup_insert_eq.
  - intros. apply to_unsigned_id. lia.
  - exists (Machine (objects m) (handles m)
              (calls m ++ [CallRetain obj; CallRelease obj])).
    split.
    { rewrite (dtor_eq _ (Some obj)) by (simpl; by simplify_map_eq). simpl.
      erewrite invoke_Ok by done. unfold set_handles, set_objects, log_call.
      simpl. by rewrite delete_insert_eq, delete_id, <- app_assoc. }
    done.
Qed.

(** C9 (as amended). [a = a] on a null handle returns with the machine
    exactly as it was.  On a handle that refers to a live object whose
    counter [c] counts at least that handle ([0 < c]), and is below
    [UINT_MAX] unless [assert] is compiled out, [a = a] returns with the
    handles and the objects exactly as they were (same object referred
    to, same counter, nothing destroyed), having recorded a retain on
    the object and then a release of it, in this order. *)
Theorem self_assignment {build : Build} (a : hid) (m : machine heap) :
  (handles m !! a = Some None → assign a a m = Ok tt m) ∧
  (∀ obj c,
     handles m !! a = Some (Some obj) →
     live (objects m) !! obj = Some {| ref_cnt := c |} →
     0 < c ≤ UINT_MAX → c < UINT_MAX ∨ NDEBUG = true →
     assign a a m =
       Ok tt (Machine (objects m) (handles m)
                (calls m ++ [CallRetain obj; CallRelease obj]))).
Proof.
  split.
  - intros Ha. rewrite (assign_eq _ _ None None) by done. unfold assign_spec.
    rewrite (bind_Ok (load a) _ m None m) by prim. simpl.
    rewrite (bind_Ok (mret tt) _ m tt m) by done.
    rewrite (bind_Ok (load a) _ m None m) by prim.
    erewrite (bind_Ok (store a None)) by prim.
    rewrite insert_id by done. unfold set_handles. by rewrite machine_eta.
  - intros obj c Ha Hobj Hc Hmax.
    destruct (Retain_Release obj c (objects m)) as (h1 & Hret & Hrel); [done..|].
    rewrite (assign_eq _ _ (Some obj) (Some obj)) by done. unfold assign_spec.
    rewrite (bind_Ok (load a) _ m (Some obj) m) by prim. simpl.
    erewrite (bind_Ok (invoke _ _)) by (by apply invoke_Ok).
    erewrite (bind_Ok (load a)) by prim.
    erewrite (bind_Ok (store a _)) by prim.
    apply noexcept_Ok. unfold relinquish. erewrite invoke_Ok by done. simpl.
    unfold set_objects, log_call, set_handles. simpl.
    by rewrite (insert_id _ _ _ Ha), <- app_assoc.
Qed.

(** ** Counting the owners of an object *)

Section Owners.
Implicit Types (H : gmap positive (option positive)) (l : loc) (p q : ptr).

Lemma owners_empty l : owners l ∅ = 0%nat.
Proof. unfold owners. by rewrite map_filter_empty, map_size_empty. Qed.

Lemma owners_size l H : (owners l H ≤ size H)%nat.
Proof. apply map_size_filter. Qed.

Lemma owners_delete l H h q :
  H !! h = Some q → (owners l (delete h H) + owns l q = owners l H)%nat.
Proof.
  intros Hh. unfold owners, owns. rewrite map_filter_delete, map_size_delete.
  case_decide as Hq.
  - rewrite (map_lookup_filter_Some_2 _ _ h q) by done.
    assert (size (filter (λ kv, kv.2 = Some l) H) ≠ 0%nat); [|lia].
    apply map_size_non_empty_iff. intros Hempty.
    apply (map_lookup_filter_Some_2 (λ kv, kv.2 = Some l)) in Hh; [|done].
    by rewrite Hempty, lookup_empty in Hh.
  - rewrite (map_lookup_filter_None_2 _ _ h); [simpl; lia|].
    right. intros ? ?. naive_solver.
Qed.

Lemma owners_insert_fresh l H h p :
  H !! h = None → (owners l (<[h := p]> H) = owners l H + owns l p)%nat.
Proof.
  intros Hh. unfold owners, owns. rewrite map_filter_insert. simpl.
  case_decide.
  - rewrite map_size_insert_None; [lia|].
    apply map_lookup_filter_None_2. by left.
  - rewrite delete_id by done. lia.
Qed.

Lemma owners_insert l H h p q :
  H !! h = Some q →
  (owners l (<[h := p]> H) + owns l q = owners l H + owns l p)%nat.
Proof.
  intros Hh. rewrite <- insert_delete_eq.
  rewrite owners_insert_fresh by apply lookup_delete_eq.
  pose proof (owners_delete l H h q Hh). lia.
Qed.

Lemma owners_pos l H h : H !! h = Some (Some l) → (0 < owners l H)%nat.
Proof.
  intros Hh. pose proof (owners_delete l H h _ Hh) as Hd.
  unfold owns in Hd. rewrite decide_True in Hd by done. lia.
Qed.

Lemma owns_None l : owns l None = 0%nat.
Proof. done. Qed.

Lemma owns_Some l l' : owns l (Some l') = if decide (l' = l) then 1%nat else 0%nat.
Proof. unfold owns. repeat case_decide; congruence. Qed.
End Owners.

(** ** The bookkeeping is maintained *)

Section Bookkeeping.
Context {build : Build} (U : gset positive).
Implicit Types (m : machine heap) (H : gmap positive (option positive)).
Implicit Types (l : loc) (p : ptr).


(** Handles may be rearranged at will as long as every object keeps
    its number of owners. *)
Lemma counted_rearranged m H :
  counted U m → (∀ l, owners l H = owners l (handles m)) →
  counted U (set_handles H m).
Proof.
  intros [Hlive Hgone Hdel Honce] Heq. split; simpl.
  - intros l o Hl. rewrite Heq. by apply Hlive.
  - intros l Hl. rewrite Heq. by apply Hgone.
  - done.
  - done.
Qed.

(** One more owner, one [Retain()]. *)
Lemma counted_retained m H l o :
  counted U m → live (objects m) !! l = Some o →
  Z.of_nat (owners l (handles m)) < UINT_MAX →
  (∀ l', owners l' H = owners l' (handles m) + owns l' (Some l))%nat →
  counted U
    (Machine
       (Heap (<[l := {| ref_cnt := to_unsigned (ref_cnt o + 1) |}]> (live (objects m)))
             (deleted (objects m)))
       H (calls m ++ [CallRetain l])).
Proof.
  intros [Hlive Hgone Hdel Honce] Hl Hsize Hown. split; simpl.
  - intros l' o' Hl'. rewrite Hown, owns_Some.
    destruct (decide (l = l')) as [<-|Hne].
    + rewrite lookup_insert_eq in Hl'. injection Hl' as <-. simpl.
      destruct (Hlive _ _ Hl) as (? & Hc & ? & ?).
      rewrite to_unsigned_id by lia.
      repeat split; try done; try lia.
      intros _. apply elem_of_app. right. by apply list_elem_of_singleton.
    + rewrite lookup_insert_ne in Hl' by done.
      destruct (Hlive _ _ Hl') as (? & Hc & Hcalls & ?).
      rewrite Nat.add_0_r. repeat split; try done.
      * intros [?|[=]%list_elem_of_singleton]%elem_of_app; [|done].
        by apply Hcalls.
      * intros ?. apply elem_of_app. left. by apply Hcalls.
  - intros l' Hl'. apply lookup_insert_None in Hl' as [Hl' Hne].
    rewrite Hown, owns_Some, decide_False by done.
    destruct (Hgone _ Hl'). split; [lia|done].
  - intros l' Hl'. destruct (Hdel _ Hl'). split; [done|].
    apply elem_of_app. by left.
  - done.
Qed.

(** One owner less, one [Release()]: the counter follows, and the
    object goes exactly when no owner is left. *)
Lemma counted_released m H l :
  counted U m → is_Some (live (objects m) !! l) →
  Z.of_nat (owners l (handles m)) ≤ UINT_MAX →
  (∀ l', owners l' H + owns l' (Some l) = owners l' (handles m))%nat →
  ∃ w, Release l (objects m) = Ok tt w ∧
    counted U (Machine w H (calls m ++ [CallRelease l])) ∧
    deleted w =
      deleted (objects m) ++ (if decide (owners l H = 0%nat) then [l] else []).
Proof.
  intros [Hlive Hgone Hdel Honce] [o Hl] Hsize Hown.
  destruct (Hlive _ _ Hl) as (HU & Hc & Hcalls & Hnew).
  pose proof (Hown l) as Hownl. rewrite owns_Some, decide_True in Hownl by done.
  assert (Hothers : ∀ l', l' ≠ l → owners l' H = owners l' (handles m)).
  { intros l' Hne. specialize (Hown l').
    rewrite owns_Some, decide_False in Hown by done. lia. }
  assert (Hret : CallRetain l ∈ calls m) by (apply Hcalls; lia).
  case_decide as Hzero.
  - eexists. split; [apply (Release_last l o); [done|lia]|].
    split; [|done]. split; simpl.
    + intros l' o' [Hne Hl']%lookup_delete_Some.
      rewrite Hothers by done.
      destruct (Hlive _ _ Hl') as (? & ? & Hcalls' & ?).
      repeat split; try done.
      * intros [?|[=]%list_elem_of_singleton]%elem_of_app. by apply Hcalls'.
      * intros ?. apply elem_of_app. left. by apply Hcalls'.
      * intros [?|?%list_elem_of_singleton]%elem_of_app; done.
    + intros l' Hl'. destruct (decide (l' = l)) as [->|Hne].
      * split; [done|]. intros _. apply elem_of_app. right. by left.
      * rewrite lookup_delete_ne in Hl' by done.
        rewrite Hothers by done. destruct (Hgone _ Hl').
        split; [done|]. intros ?. apply elem_of_app. left. auto.
    + intros l' [Hl'| ->%list_elem_of_singleton]%elem_of_app.
      * destruct (Hdel _ Hl'). split; [done|]. apply elem_of_app. by left.
      * split; [done|]. apply elem_of_app. by left.
    + apply NoDup_app. repeat split; [done| |apply NoDup_singleton].
      intros l' ? ->%list_elem_of_singleton. done.
  - eexists. split; [apply (Release_shared l o); [done|lia]|].
    split; [|by rewrite app_nil_r]. split; simpl.
    + intros l' o' Hl'. destruct (decide (l = l')) as [<-|Hne].
      * rewrite lookup_insert_eq in Hl'. injection Hl' as <-. simpl.
        repeat split; try done; try lia.
        intros _. apply elem_of_app. by left.
      * rewrite lookup_insert_ne in Hl' by done. rewrite Hothers by done.
        destruct (Hlive _ _ Hl') as (? & ? & Hcalls' & ?).
        repeat split; try done.
        -- intros [?|[=]%list_elem_of_singleton]%elem_of_app. by apply Hcalls'.
        -- intros ?. apply elem_of_app. left. by apply Hcalls'.
    + intros l' Hl'. apply lookup_insert_None in Hl' as [Hl' Hne].
      rewrite Hothers by done. by apply Hgone.
    + intros l' Hl'. destruct (Hdel _ Hl'). split; [done|].
      apply elem_of_app. by left.
    + done.
Qed.
End Bookkeeping.

(** ** What it takes for an operation to return *)

Section Returning.
Context {W : Type} `{Info : IntrusiveRefCntPtrInfo W}.
Implicit Types (m : machine W) (h : hid) (p : ptr).

Lemma init_Ok_inv h p m m' : init h p m = Ok tt m' → handles m !! h = None.
Proof. unfold init. by destruct (handles m !! h). Qed.

Lemma load_Ok_inv h p m m' : load h m = Ok p m' → handles m !! h = Some p ∧ m' = m.
Proof. unfold load. destruct (handles m !! h); naive_solver. Qed.

Lemma constructing_Ok_inv h (body : M W unit) m m' :
  constructing h body m = Ok tt m' → body m = Ok tt m'.
Proof. unfold constructing. by destruct (body m) as [[]| | |]. Qed.

Lemma noexcept_Ok_inv {A} (body : M W A) m a m' :
  noexcept body m = Ok a m' → body m = Ok a m'.
Proof. unfold noexcept. by destruct (body m). Qed.

Lemma raw_Ok_inv h p m m' :
  IntrusiveRefCntPtr_raw h p m = Ok tt m' → handles m !! h = None.
Proof.
  intros ([] & m1 & Hi & _)%constructing_Ok_inv%bind_Ok_inv.
  by eapply init_Ok_inv.
Qed.

Lemma copy_Ok_inv h S m m' :
  IntrusiveRefCntPtr_copy h S m = Ok tt m' →
  handles m !! h = None ∧ is_Some (handles m !! S).
Proof.
  intros (p & m1 & [HS ->]%load_Ok_inv & Hrest)%constructing_Ok_inv%bind_Ok_inv.
  apply bind_Ok_inv in Hrest as ([] & m2 & Hi & _).
  split; [by eapply init_Ok_inv|eauto].
Qed.

Lemma move_Ok_inv h S m m' :
  IntrusiveRefCntPtr_move h S m = Ok tt m' →
  handles m !! h = None ∧ is_Some (handles m !! S).
Proof.
  intros (p & m1 & [HS ->]%load_Ok_inv & Hrest)%constructing_Ok_inv%bind_Ok_inv.
  apply bind_Ok_inv in Hrest as ([] & m2 & Hi & _).
  split; [by eapply init_Ok_inv|eauto].
Qed.

Lemma swap_Ok_inv a b m m' :
  swap a b m = Ok tt m' → is_Some (handles m !! a) ∧ is_Some (handles m !! b).
Proof.
  intros (pb & m1 & [Hb ->]%load_Ok_inv & Hrest)%bind_Ok_inv.
  apply bind_Ok_inv in Hrest as (pa & m2 & [Ha ->]%load_Ok_inv & _). eauto.
Qed.

Lemma release_Ok_inv h m m' : release h m = Ok tt m' → is_Some (handles m !! h).
Proof. intros (p & m1 & [Hh ->]%load_Ok_inv & _)%bind_Ok_inv. eauto. Qed.

Lemma reset_Ok_inv h m m' : reset h m = Ok tt m' → is_Some (handles m !! h).
Proof. intros ([] & m1 & Hr & _)%bind_Ok_inv. by eapply release_Ok_inv. Qed.

Lemma dtor_Ok_inv h m m' :
  IntrusiveRefCntPtr_dtor h m = Ok tt m' → is_Some (handles m !! h).
Proof.
  intros ([] & m1 & Hr & _)%noexcept_Ok_inv%bind_Ok_inv.
  by eapply release_Ok_inv.
Qed.

Lemma assign_Ok_inv a b m m' :
  assign a b m = Ok tt m' → is_Some (handles m !! a) ∧ is_Some (handles m !! b).
Proof.
  unfold assign. destruct (temporary_fresh a b m) as (HS & Ha & Hb).
  intros ([] & m1 & Hcopy & Hrest)%bind_Ok_inv.
  pose proof (copy_Ok_inv _ _ _ _ Hcopy) as [_ [pb Hpb]].
  rewrite (copy_eq _ _ pb) in Hcopy by done.
  pose proof (acquire_handles pb m _ eq_refl) as Hm.
  destruct (acquire pb m) as [[] m2| | |]; simplify_eq.
  apply bind_Ok_inv in Hrest as ([] & m3 & [Hsw _]%swap_Ok_inv & _).
  simpl in Hsw. rewrite lookup_insert_ne in Hsw by done. eauto.
Qed.

Lemma default_eq h m :
  IntrusiveRefCntPtr_default h m = IntrusiveRefCntPtr_raw h None m.
Proof.
  unfold IntrusiveRefCntPtr_default, IntrusiveRefCntPtr_raw, constructing.
  rewrite bind_unfold. unfold init.
  destruct (handles m !! h) eqn:Hh; [done|].
  by rewrite (retain_eq _ None) by (simpl; by simplify_map_eq).
Qed.
End Returning.

(** ** One operation at a time *)

Section Steps.
Context {build : Build} (U : gset positive).
Implicit Types (m : machine heap) (H : gmap positive (option positive)).
Implicit Types (l : loc) (p : ptr) (h a b : hid).

(** A new handle that takes a share in what [p] refers to. *)
Lemma acquire_step m h p m1 :
  counted U m → handles m !! h = None →
  (∀ l, Z.of_nat (owners l (handles m) + owns l p) ≤ UINT_MAX) →
  acquire p m = Ok tt m1 →
  counted U (set_handles (<[h := p]> (handles m)) m1) ∧
  deleted (objects m1) = deleted (objects m) ∧
  ∃ cs, calls m1 = calls m ++ cs.
Proof.
  intros Hm Hh Hsize. destruct p as [l|]; simpl.
  - unfold invoke. simpl. unfold Retain.
    destruct (live (objects m) !! l) as [o|] eqn:Hl; [|done].
    simpl. intros [= <-]. split; [|split; [done|by eexists]].
    apply (counted_retained U m _ l o); try done.
    + specialize (Hsize l). rewrite owns_Some, decide_True in Hsize by done. lia.
    + intros l'. by apply owners_insert_fresh.
  - intros [= <-]. split; [|split; [done|by exists []; rewrite app_nil_r]].
    apply counted_rearranged; [done|]. intros l.
    rewrite owners_insert_fresh, owns_None by done. lia.
Qed.

(** A handle that gives up its share in what [p] refers to. *)
Lemma relinquish_step m a p H m1 :
  counted U m → handles m !! a = Some p →
  (∀ l, Z.of_nat (owners l (handles m)) ≤ UINT_MAX) →
  (∀ l, owners l H + owns l p = owners l (handles m))%nat →
  relinquish p m = Ok tt m1 →
  counted U (set_handles H m1) ∧
  deleted (objects m1) = deleted (objects m) ++ last_owner_gone p H ∧
  calls m1 = calls m ++ released p.
Proof.
  intros Hm Ha Hsize Hown. destruct p as [l|]; simpl.
  - unfold invoke. simpl. intros Hrel.
    assert (is_Some (live (objects m) !! l)) as Hl.
    { unfold Release in Hrel. destruct (live (objects m) !! l); [eauto|done]. }
    destruct (counted_released U m H l Hm Hl (Hsize l) Hown) as (w & Hw & Hc & Hd).
    rewrite Hw in Hrel. simpl in Hrel. injection Hrel as <-. simpl. done.
  - intros [= <-]. rewrite !app_nil_r. split; [|done].
    apply counted_rearranged; [done|]. intros l.
    specialize (Hown l). rewrite owns_None in Hown. lia.
Qed.

(** Which object a release destroys, told from the owners before and
    after: [a] gave up [pa], and a share in [pb] may have been taken. *)
Lemma last_owner_gone_spec H H' a pa pb :
  H !! a = Some pa →
  (∀ l, owners l H' + owns l pa = owners l H + owns l pb)%nat →
  ∀ l, l ∈ last_owner_gone pa H' ↔ (0 < owners l H)%nat ∧ owners l H' = 0%nat.
Proof.
  intros Ha Hown l. unfold last_owner_gone. split.
  - destruct pa as [la|]; [|by intros ?%elem_of_nil].
    case_decide; [|by intros ?%elem_of_nil].
    intros ->%list_elem_of_singleton. split; [by eapply owners_pos|done].
  - intros [Hpos Hzero]. specialize (Hown l). rewrite Hzero in Hown.
    unfold owns at 1 in Hown. case_decide as Hpa; [|lia]. subst pa.
    rewrite decide_True by done. by apply list_elem_of_singleton.
Qed.
End Steps.

Section Operations.
Context {build : Build} (U : gset positive).
Implicit Types (m : machine heap) (H : gmap positive (option positive)).
Implicit Types (l : loc) (p : ptr) (h a b : hid) (o : op).

Lemma quiet_step o m m' :
  deleted (objects m') = deleted (objects m) →
  (∀ l, owners l (handles m) ≤ owners l (handles m'))%nat →
  destroys_last_owned o m m'.
Proof.
  intros Hd Hown. exists []. rewrite app_nil_r. split; [done|].
  split; [|done]. intros l. split; [by intros ?%elem_of_nil|].
  intros [? ?]. specialize (Hown l). lia.
Qed.

Lemma releasing_step o m m' a pa pb :
  releases o = true → handles m !! a = Some pa →
  (∀ l, owners l (handles m') + owns l pa = owners l (handles m) + owns l pb)%nat →
  deleted (objects m') = deleted (objects m) ++ last_owner_gone pa (handles m') →
  (∃ cs, calls m' = cs ++ released pa) →
  destroys_last_owned o m m'.
Proof.
  intros Ho Ha Hown Hd [cs Hcs]. eexists. split; [done|].
  split; [by eapply last_owner_gone_spec|].
  intros Hne. split; [done|]. unfold last_owner_gone in *.
  destruct pa as [l|]; [|done]. case_decide; [|done].
  exists l. split; [done|]. rewrite Hcs. apply last_snoc.
Qed.

(** With fewer than [UINT_MAX] handles, no operation takes the owners
    of an object beyond [UINT_MAX]. *)
Lemma few_handles o m l :
  Z.of_nat (size (handles m)) < UINT_MAX → Z.of_nat (peak_owners l o m) ≤ UINT_MAX.
Proof.
  intros Hsize. unfold peak_owners, owns.
  pose proof (owners_size l (handles m)). case_decide; lia.
Qed.

Lemma peak_owners_before o m l :
  Z.of_nat (peak_owners l o m) ≤ UINT_MAX → Z.of_nat (owners l (handles m)) ≤ UINT_MAX.
Proof. unfold peak_owners. lia. Qed.

Lemma exec_counted o m m' :
  counted U m → (∀ l, Z.of_nat (peak_owners l o m) ≤ UINT_MAX) →
  exec o m = Ok tt m' →
  counted U m' ∧ (size (handles m') ≤ S (size (handles m)))%nat ∧
  destroys_last_owned o m m'.
Proof.
  intros Hm Hpeak Hex.
  pose proof (λ l, peak_owners_before o m l (Hpeak l)) as Hbefore.
  unfold peak_owners in Hpeak.
  assert (Hnew : ∀ h p, handles m !! h = None →
    (∀ l, Z.of_nat (owners l (handles m) + owns l p) ≤ UINT_MAX) →
    IntrusiveRefCntPtr_raw h p m = Ok tt m' →
    counted U m' ∧ (size (handles m') ≤ S (size (handles m)))%nat ∧
    destroys_last_owned o m m').
  { intros h p Hh Hsize Hraw. rewrite raw_eq in Hraw by done.
    destruct (acquire p m) as [[] m1| | |] eqn:Hacq; simplify_eq.
    pose proof (acquire_handles _ _ _ Hacq) as Hm1. simpl in Hm1.
    destruct (acquire_step U m h p m1) as (Hc & Hd & _); try done.
    split; [done|]. simpl. split; [by rewrite map_size_insert_None|].
    apply quiet_step; [done|]. intros l. simpl.
    rewrite owners_insert_fresh by done. lia. }
  assert (Hmoved : ∀ h src, IntrusiveRefCntPtr_move h src m = Ok tt m' →
    counted U m' ∧ (size (handles m') ≤ S (size (handles m)))%nat ∧
    destroys_last_owned o m m').
  { intros h src Hmv. destruct (move_Ok_inv _ _ _ _ Hmv) as [Hh [p Hsrc]].
    rewrite (move_eq _ _ p) in Hmv by done. injection Hmv as <-.
    assert (h ≠ src) by congruence.
    assert (Hown : ∀ l, owners l (<[src := None]> (<[h := p]> (handles m)))
                        = owners l (handles m)).
    { intros l.
      pose proof (owners_insert l (<[h := p]> (handles m)) src None p) as Hi.
      rewrite lookup_insert_ne in Hi by done. specialize (Hi Hsrc).
      rewrite owns_None, (owners_insert_fresh l (handles m) h p) in Hi by done.
      lia. }
    split; [by apply counted_rearranged|]. simpl. split.
    - rewrite map_size_insert_Some by (rewrite lookup_insert_ne by done; eauto).
      by rewrite map_size_insert_None.
    - apply quiet_step; [done|]. intros l. simpl. by rewrite Hown. }
  assert (Hcopied : ∀ h src,
    (∀ l, Z.of_nat (owners l (handles m)
                    + owns l (default None (handles m !! src))) ≤ UINT_MAX) →
    IntrusiveRefCntPtr_copy h src m = Ok tt m' →
    counted U m' ∧ (size (handles m') ≤ S (size (handles m)))%nat ∧
    destroys_last_owned o m m').
  { intros h src Hsize Hcp. destruct (copy_Ok_inv _ _ _ _ Hcp) as [Hh [p Hsrc]].
    rewrite Hsrc in Hsize. simpl in Hsize.
    apply (Hnew h p Hh Hsize). by rewrite raw_eq, <- (copy_eq h src). }
  destruct o as [h|h p|h src|h src|h src|h src|a b|a b|a|a];
    simpl in Hex; simpl in Hpeak.
  - rewrite default_eq in Hex. eapply Hnew; [|done..]. by eapply raw_Ok_inv.
  - eapply Hnew; [|done..]. by eapply raw_Ok_inv.
  - by eapply Hcopied.
  - by eapply Hcopied.
  - by eapply Hmoved.
  - by eapply Hmoved.
  - (* Assign *)
    clear Hnew Hmoved Hcopied.
    destruct (assign_Ok_inv _ _ _ _ Hex) as [[pa Ha] [pb Hb]].
    rewrite Hb in Hpeak. simpl in Hpeak.
    unfold assign, operator_assign in Hex.
    destruct (temporary_fresh a b m) as (HS & HaS & HbS).
    set (S := temporary a b m) in *.
    apply bind_Ok_inv in Hex as ([] & m1 & Hcopy & Hex).
    rewrite (copy_eq _ _ pb) in Hcopy by done.
    destruct (acquire pb m) as [[] m0| | |] eqn:Hacq; simplify_eq.
    pose proof (acquire_handles _ _ _ Hacq) as Hm0. simpl in Hm0.
    destruct (acquire_step U m S pb m0) as (Hc1 & Hd1 & Hcs1); try done.
    apply bind_Ok_inv in Hex as ([] & m2 & Hswap & Hex).
    rewrite (swap_eq _ _ pa pb) in Hswap by (simpl; by simplify_map_eq).
    injection Hswap as <-. simpl in Hex.
    rewrite (dtor_eq _ pa) in Hex by (simpl; by simplify_map_eq).
    rewrite !relinquish_frame in Hex.
    destruct (relinquish pa m0) as [[] m3| | |] eqn:Hrel; simplify_eq/=.
    pose proof (relinquish_handles _ _ _ Hrel) as Hm3. simpl in Hm3.
    rewrite temporary_gone by done.
    assert (Hown : ∀ l, (owners l (<[a := pb]> (handles m)) + owns l pa
                         = owners l (handles m) + owns l pb)%nat).
    { intros l. by apply owners_insert. }
    set (H1 := <[S := pb]> (handles m)) in *.
    set (H2 := <[a := pb]> (<[S := pa]> H1)).
    assert (HH2 : ∀ l, owners l H2 = owners l H1).
    { intros l. subst H2.
      pose proof (owners_insert l (<[S := pa]> H1) a pb pa) as Hi1.
      rewrite lookup_insert_ne in Hi1 by done.
      pose proof (owners_insert l H1 S pa pb) as Hi2.
      subst H1. rewrite lookup_insert_eq in Hi2.
      rewrite lookup_insert_ne in Hi1 by done.
      specialize (Hi1 Ha). specialize (Hi2 eq_refl). lia. }
    assert (Hc2 : counted U (set_handles H2 (set_handles H1 m0))).
    { by apply counted_rearranged. }
    destruct (relinquish_step U (set_handles H2 (set_handles H1 m0)) S pa
                (<[a := pb]> (handles m)) (set_handles H2 m3))
      as (Hc3 & Hd3 & Hcs3).
    + done.
    + subst H2 H1. simpl. by simplify_map_eq.
    + intros l. simpl. rewrite HH2. subst H1.
      rewrite (owners_insert_fresh l (handles m) S pb) by done. apply Hpeak.
    + intros l. simpl. rewrite HH2. subst H1.
      rewrite (owners_insert_fresh l (handles m) S pb) by done.
      specialize (Hown l). lia.
    + change (set_handles H2 (set_handles H1 m0)) with (set_handles H2 m0).
      rewrite relinquish_frame, Hrel. done.
    + split; [done|]. simpl.
      split; [rewrite map_size_insert_Some by eauto; lia|].
      eapply (releasing_step _ _ _ a pa pb); simpl; try done.
      * simpl in Hd3. by rewrite Hd3, Hd1.
      * simpl in Hcs3. eauto.
  - (* Swap *)
    destruct (swap_Ok_inv _ _ _ _ Hex) as [[pa Ha] [pb Hb]].
    rewrite (swap_eq _ _ pa pb) in Hex by done. injection Hex as <-.
    assert (Hown : ∀ l, owners l (<[a := pb]> (<[b := pa]> (handles m)))
                        = owners l (handles m)).
    { intros l.
      pose proof (owners_insert l (handles m) b pa pb Hb).
      assert (<[b := pa]> (handles m) !! a = Some pa) as Hl.
      { destruct (decide (a = b)) as [->|]; by simplify_map_eq. }
      pose proof (owners_insert l _ a pb pa Hl). lia. }
    split; [by apply counted_rearranged|]. simpl. split.
    + rewrite map_size_insert_Some.
      * rewrite map_size_insert_Some by eauto. lia.
      * destruct (decide (a = b)) as [->|]; simplify_map_eq; eauto.
    + apply quiet_step; [done|]. intros l. simpl. by rewrite Hown.
  - (* Reset *)
    destruct (reset_Ok_inv _ _ _ Hex) as [p Ha].
    rewrite (reset_eq _ p) in Hex by done.
    destruct (relinquish p m) as [[] m1| | |] eqn:Hrel; simplify_eq.
    assert (Hown : ∀ l, (owners l (<[a := None]> (handles m)) + owns l p
                         = owners l (handles m) + owns l None)%nat).
    { intros l. by apply owners_insert. }
    destruct (relinquish_step U m a p (<[a := None]> (handles m)) m1)
      as (Hc & Hd & Hcs); try done.
    { intros l. specialize (Hown l). rewrite owns_None in Hown. lia. }
    split; [done|]. simpl.
    split; [rewrite map_size_insert_Some by eauto; lia|].
    eapply (releasing_step _ _ _ a p None); simpl; eauto.
  - (* Destroy *)
    destruct (dtor_Ok_inv _ _ _ Hex) as [p Ha].
    rewrite (dtor_eq _ p) in Hex by done.
    destruct (relinquish p m) as [[] m1| | |] eqn:Hrel; simplify_eq.
    pose proof (λ l, owners_delete l (handles m) a p Ha) as Hown.
    destruct (relinquish_step U m a p (delete a (handles m)) m1)
      as (Hc & Hd & Hcs); try done.
    split; [done|]. simpl.
    split; [rewrite map_size_delete_Some by eauto; lia|].
    eapply (releasing_step _ _ _ a p None); simpl; eauto.
    intros l. rewrite owns_None, Hown. lia.
Qed.

(** The only handle that an operation adds is the one it constructs:
    the parameter of an assignment is gone when it returns. *)
Lemma exec_dom o m m' :
  exec o m = Ok tt m' → dom (handles m') ⊆ dom (handles m) ∪ constructs o.
Proof.
  intros Hex.
  assert (Hnew : ∀ h p, IntrusiveRefCntPtr_raw h p m = Ok tt m' →
    dom (handles m') ⊆ dom (handles m) ∪ {[h]}).
  { intros h p Hraw. pose proof (raw_Ok_inv _ _ _ _ Hraw) as Hh.
    rewrite raw_eq in Hraw by done.
    destruct (acquire p m) as [[] m1| | |] eqn:Hacq; simplify_eq.
    simpl. rewrite dom_insert.
    apply union_least; [apply union_subseteq_r|apply union_subseteq_l]. }
  assert (Hcopied : ∀ h src, IntrusiveRefCntPtr_copy h src m = Ok tt m' →
    dom (handles m') ⊆ dom (handles m) ∪ {[h]}).
  { intros h src Hcp. destruct (copy_Ok_inv _ _ _ _ Hcp) as [Hh [p Hsrc]].
    apply (Hnew h p). by rewrite raw_eq, <- (copy_eq h src). }
  assert (Hmoved : ∀ h src, IntrusiveRefCntPtr_move h src m = Ok tt m' →
    dom (handles m') ⊆ dom (handles m) ∪ {[h]}).
  { intros h src Hmv. destruct (move_Ok_inv _ _ _ _ Hmv) as [Hh [p Hsrc]].
    rewrite (move_eq _ _ p) in Hmv by done. injection Hmv as <-.
    assert (h ≠ src) by congruence. simpl.
    rewrite dom_insert_lookup_L by (rewrite lookup_insert_ne by done; eauto).
    rewrite dom_insert.
    apply union_least; [apply union_subseteq_r|apply union_subseteq_l]. }
  destruct o as [h|h p|h src|h src|h src|h src|a b|a b|a|a]; simpl in Hex; simpl.
  - rewrite default_eq in Hex. by eapply Hnew.
  - by eapply Hnew.
  - by eapply Hcopied.
  - by eapply Hcopied.
  - by eapply Hmoved.
  - by eapply Hmoved.
  - destruct (assign_Ok_inv _ _ _ _ Hex) as [[pa Ha] [pb Hb]].
    rewrite (assign_eq _ _ pa pb) in Hex by done. unfold assign_spec in Hex.
    rewrite (bind_Ok (load b) _ m pb m) in Hex by prim.
    apply bind_Ok_inv in Hex as ([] & m0 & Hacq & Hex).
    pose proof (acquire_handles _ _ _ Hacq) as Hm0. simpl in Hm0.
    rewrite (bind_Ok (load a) _ m0 pa m0) in Hex by (apply load_Ok; by rewrite Hm0).
    apply bind_Ok_inv in Hex as ([] & m2 & Hst & Hex).
    erewrite store_Ok in Hst by (by rewrite Hm0). injection Hst as <-.
    apply noexcept_Ok_inv in Hex.
    pose proof (relinquish_handles _ _ _ Hex) as Hm'. simpl in Hm'.
    rewrite Hm', Hm0, dom_insert_lookup_L by eauto. apply union_subseteq_l.
  - destruct (swap_Ok_inv _ _ _ _ Hex) as [[pa Ha] [pb Hb]].
    rewrite (swap_eq _ _ pa pb) in Hex by done. injection Hex as <-. simpl.
    rewrite dom_insert_lookup_L
      by (destruct (decide (a = b)) as [->|]; simplify_map_eq; eauto).
    rewrite dom_insert_lookup_L by eauto. apply union_subseteq_l.
  - destruct (reset_Ok_inv _ _ _ Hex) as [p Ha].
    rewrite (reset_eq _ p) in Hex by done.
    destruct (relinquish p m) as [[] m1| | |] eqn:Hrel; simplify_eq.
    simpl. rewrite dom_insert_lookup_L by eauto. apply union_subseteq_l.
  - destruct (dtor_Ok_inv _ _ _ Hex) as [p Ha].
    rewrite (dtor_eq _ p) in Hex by done.
    destruct (relinquish p m) as [[] m1| | |] eqn:Hrel; simplify_eq.
    simpl. rewrite dom_delete.
    etrans; [by apply subseteq_difference_l|apply union_subseteq_l].
Qed.
End Operations.

(** ** Which operations return *)

Section Progress.
Context {build : Build} (U : gset positive).
Implicit Types (m : machine heap) (H : gmap positive (option positive)).
Implicit Types (l : loc) (p : ptr) (h a b : hid) (o : op).

(** What a handle refers to is live. *)
Lemma owned_live m a l :
  counted U m → handles m !! a = Some (Some l) →
  is_Some (live (objects m) !! l).
Proof.
  intros Hm Ha. destruct (live (objects m) !! l) eqn:Hl; [eauto|].
  destruct (counted_gone _ _ Hm l Hl) as [Hzero _].
  pose proof (owners_pos _ _ _ Ha). lia.
Qed.



End Progress.

(** ** Sequences of operations *)

Section Sequences.
Context {build : Build} (U : gset positive).
Implicit Types (m : machine heap) (ops : list op).

Lemma run_counted ops m m' :
  counted U m →
  Z.of_nat (size (handles m) + length ops) ≤ UINT_MAX →
  run ops m = Ok tt m' →
  counted U m' ∧ (size (handles m') ≤ size (handles m) + length ops)%nat.
Proof.
  revert m. induction ops as [|o ops IH]; intros m Hm Hsize; simpl.
  - intros [= <-]. split; [done|lia].
  - intros ([] & m1 & Ho & Hrest)%bind_Ok_inv. simpl in Hsize.
    destruct (exec_counted U o m m1) as (Hm1 & Hs1 & _);
      [done|intros l; apply few_handles; lia|done|].
    destruct (IH m1) as [Hm' Hs']; [done|lia|done|]. split; [done|lia].
Qed.





(** A sequence no longer than the range of the counter stays within
    it. *)
Lemma short_runs_in_range ops m pre o post m1 l :
  counted U m →
  Z.of_nat (size (handles m) + length ops) ≤ UINT_MAX →
  ops = pre ++ o :: post → run pre m = Ok tt m1 →
  Z.of_nat (peak_owners l o m1) ≤ UINT_MAX.
Proof.
  intros Hm Hlen -> Hpre. rewrite length_app in Hlen. simpl in Hlen.
  destruct (run_counted pre m m1) as [_ Hsize]; [done|lia|done|].
  apply few_handles. lia.
Qed.

Lemma no_handle_yet (O : loc) (D : gset positive) :
  dom (handles (fresh_object O)) ⊆ D.
Proof. simpl. rewrite dom_empty_L. apply empty_subseteq. Qed.

(** So is a sequence of any length that constructs its handles in
    fewer than [UINT_MAX] places. *)
Lemma run_dom (D : gset positive) ops m m' :
  dom (handles m) ⊆ D → Forall (λ o, constructs o ⊆ D) ops →
  run ops m = Ok tt m' → dom (handles m') ⊆ D.
Proof.
  revert m. induction ops as [|o ops IH]; intros m Hm Hops; simpl.
  - by intros [= <-].
  - intros ([] & m1 & Ho & Hrest)%bind_Ok_inv.
    apply Forall_cons in Hops as [Hhere Hops].
    apply (IH m1); [|done..]. etrans; [by eapply exec_dom|]. by apply union_least.
Qed.

Lemma few_places_in_range (D : gset positive) ops m pre o post m1 l :
  dom (handles m) ⊆ D → Z.of_nat (size D) < UINT_MAX →
  Forall (λ o, constructs o ⊆ D) ops →
  ops = pre ++ o :: post → run pre m = Ok tt m1 →
  Z.of_nat (peak_owners l o m1) ≤ UINT_MAX.
Proof.
  intros Hm HD Hops -> Hpre. apply Forall_app in Hops as [Hops _].
  pose proof (run_dom D pre m m1 Hm Hops Hpre) as Hdom.
  apply subseteq_size in Hdom. rewrite size_dom in Hdom.
  apply few_handles. lia.
Qed.

End Sequences.



(** ** Sequences of any length *)

(** A handle that is copied and whose copy is destroyed, any number of
    times over, before it is destroyed itself: there are never more
    than two handles, however long the sequence. *)
Lemma long_sequences_in_range {build : Build} (O : loc) (n : nat) :
  ∀ pre o post m1,
    FromRaw 1%positive (Some O) :: churn n ++ [Destroy 1%positive] = pre ++ o :: post →
    run pre (fresh_object O) = Ok tt m1 →
    Z.of_nat (peak_owners O o m1) ≤ UINT_MAX.
Proof.
  assert (Hchurn : Forall (λ o, constructs o ⊆ {[1%positive; 2%positive]}) (churn n)).
  { induction n as [|n IH]; simpl; [constructor|].
    apply Forall_cons. split; [apply union_subseteq_r|].
    apply Forall_cons. split; [apply empty_subseteq|done]. }
  intros pre o post m1 Hops Hpre.
  eapply (few_places_in_range {[1%positive; 2%positive]});
    [apply no_handle_yet|by vm_compute| |exact Hops|exact Hpre].
  apply Forall_cons. split; [apply union_subseteq_l|].
  apply Forall_app. split; [done|]. apply Forall_singleton, empty_subseteq.
Qed.

(** ** The counter at the end of its range *)




(** ** The claims on concrete machines *)

Section Examples.
Local Existing Instance checked.
Local Open Scope positive_scope.


(** The scenario of the specification: a handle [A] is constructed on a
    fresh object (counter 1), copied into [B] (counter 2), [A] is
    destroyed (counter 1, the object still live), then [B] (the object
    is destroyed, once). *)
Example share_then_release :
  let counter r := outcome_map (λ m : machine heap,
                      (ref_cnt <$> live (objects m) !! 7, deleted (objects m))) r in
  counter (run [FromRaw 1 (Some 7)] (fresh_object 7)) = Ok tt (Some 1%Z, []) ∧
  counter (run [FromRaw 1 (Some 7); Copy 2 1] (fresh_object 7)) = Ok tt (Some 2%Z, []) ∧
  counter (run [FromRaw 1 (Some 7); Copy 2 1; Destroy 1] (fresh_object 7))
    = Ok tt (Some 1%Z, []) ∧
  counter (run [FromRaw 1 (Some 7); Copy 2 1; Destroy 1; Destroy 2] (fresh_object 7))
    = Ok tt (None, [7]).
Proof. repeat split; vm_compute; reflexivity. Qed.


End Examples.

Section More_examples.
Local Existing Instance checked.
Local Open Scope positive_scope.

Lemma Release_decrements_witness :
  let h := Heap {[ 7 := {| ref_cnt := 2 |} ]} [] in
  live h !! 7 = Some {| ref_cnt := 2 |} ∧ (0 ≤ 2 ≤ UINT_MAX)%Z ∧
  ∃ h', Release 7 h = Ok tt h' ∧
        live h' !! 7 = Some {| ref_cnt := 2 - 1 |} ∧ deleted h' = deleted h.
Proof.
  intros h.
  assert (Hl : live h !! 7 = Some {| ref_cnt := 2 |}) by reflexivity.
  assert (Hc : (0 ≤ 2 ≤ UINT_MAX)%Z) by (by vm_compute).
  split; [exact Hl|]. split; [exact Hc|].
  destruct (Release_decrements 7 2 h Hl Hc) as [Hpos _].
  destruct (Hpos eq_refl) as (h' & Hrel & _ & Hshared & _).
  exists h'. split; [exact Hrel|]. apply Hshared. discriminate.
Defined.

Lemma raw_constructor_acquires_once_witness :
  let m := example_machine 1 in
  handles m !! 3 = None ∧
  live (objects m) !! 7 = Some {| ref_cnt := 1 |} ∧ (0 ≤ 1 < UINT_MAX)%Z ∧
  ∃ m', IntrusiveRefCntPtr_raw 3 (Some 7) m = Ok tt m' ∧
        get 3 m' = Ok (Some 7) m' ∧
        calls m' = (calls m ++ [CallRetain 7])%list ∧
        live (objects m') !! 7 = Some {| ref_cnt := 1 + 1 |}.
Proof.
  intros m. assert (H3 : handles m !! 3 = None) by reflexivity.
  assert (Hc : (0 ≤ 1 < UINT_MAX)%Z) by (by vm_compute).
  split; [exact H3|]. split; [reflexivity|]. split; [exact Hc|].
  destruct (raw_constructor_acquires_once 3 m H3) as [Hobj _].
  destruct (Hobj 7 1%Z eq_refl Hc) as (m' & Hraw & Hget & _ & Hcalls & Hcnt & _).
  exists m'. auto.
Defined.

(** Where C3 as first stated fails.  On an object whose counter is at
    [UINT_MAX], the constructor returns with a non-null handle after
    its one retain, but the counter has wrapped around to 0 instead of
    growing by one: the object counts no owner, and the destruction of
    the very handle just constructed fails the assertion in
    [Release()]. *)
Lemma raw_constructor_acquires_once_counterexample :
  outcome_map (λ m1, (ref_cnt <$> live (objects m1) !! 7, handles m1 !! 3, calls m1))
    (IntrusiveRefCntPtr_raw 3 (Some 7) (example_machine UINT_MAX))
  = Ok tt (Some 0%Z, Some (Some 7), [CallRetain 7]) ∧
  (IntrusiveRefCntPtr_raw 3 (Some 7) ;; IntrusiveRefCntPtr_dtor 3)
    (example_machine UINT_MAX) = Abort.
Proof. split; vm_compute; reflexivity. Qed.

Lemma copy_then_destroy_witness :
  let m := example_machine 1 in
  handles m !! 1 = Some (Some 7) ∧ handles m !! 3 = None ∧
  live (objects m) !! 7 = Some {| ref_cnt := 1 |} ∧ (0 < 1 ≤ UINT_MAX)%Z ∧
  ((1 < UINT_MAX)%Z ∨ NDEBUG = true) ∧
  ∃ m1, IntrusiveRefCntPtr_copy 3 1 m = Ok tt m1 ∧
    live (objects m1) !! 7 = Some {| ref_cnt := to_unsigned (1 + 1) |} ∧
    ∃ m2, IntrusiveRefCntPtr_dtor 3 m1 = Ok tt m2 ∧
      objects m2 = objects m ∧ handles m2 = handles m.
Proof.
  intros m. assert (Hc : (0 < 1 ≤ UINT_MAX)%Z) by (by vm_compute).
  assert (Hmax : (1 < UINT_MAX)%Z ∨ NDEBUG = true) by (left; by vm_compute).
  do 3 (split; [reflexivity|]). split; [exact Hc|]. split; [exact Hmax|].
  destruct (copy_then_destroy 3 1 7 1%Z m eq_refl eq_refl eq_refl Hc Hmax)
    as (m1 & Hcopy & _ & _ & Hcnt & _ & _ & m2 & Hdtor & _ & Hobjs & Hhs & _).
  exists m1. split; [exact Hcopy|]. split; [exact Hcnt|].
  exists m2. auto.
Defined.

(** Where C4 as first stated fails.  With the counter at [UINT_MAX],
    the copy's retain makes it wrap around to 0, and the destruction of
    the copy then fails the assertion instead of bringing the counter
    back.  With the counter at 0, a handle that refers to the object
    without being counted, the copy takes it to 1 and the destruction of
    the copy destroys the object, which the first handle still refers
    to. *)
Lemma copy_then_destroy_counterexample :
  outcome_map (λ m1, ref_cnt <$> live (objects m1) !! 7)
    (IntrusiveRefCntPtr_copy 3 1 (example_machine UINT_MAX)) = Ok tt (Some 0%Z) ∧
  (IntrusiveRefCntPtr_copy 3 1 ;; IntrusiveRefCntPtr_dtor 3)
    (example_machine UINT_MAX) = Abort ∧
  outcome_map (λ m2, (live (objects m2) !! 7, deleted (objects m2), handles m2 !! 1))
    ((IntrusiveRefCntPtr_copy 3 1 ;; IntrusiveRefCntPtr_dtor 3) (example_machine 0))
  = Ok tt (None, [7], Some (Some 7)).
Proof. repeat split; vm_compute; reflexivity. Qed.

Lemma move_transfers_witness :
  let m := example_machine 1 in
  handles m !! 1 = Some (Some 7) ∧ handles m !! 3 = None ∧
  ∃ m', IntrusiveRefCntPtr_move_convert 3 1 m = Ok tt m' ∧
        get 3 m' = Ok (Some 7) m' ∧ operator_bool 1 m' = Ok false m' ∧
        objects m' = objects m ∧ calls m' = calls m.
Proof.
  intros m. do 2 (split; [reflexivity|]).
  destruct (move_transfers 3 1 (Some 7) m eq_refl eq_refl
              IntrusiveRefCntPtr_move_convert (or_intror eq_refl))
    as (m' & Hmv & Hget & _ & Hbool & _ & Hobjs & Hcalls).
  exists m'. auto.
Defined.

Lemma assign_copy_and_swap_witness :
  let Throwing : IntrusiveRefCntPtrInfo unit :=
    {| Info_retain := λ _ w, Throw w; Info_release := λ _ w, Ok tt w |} in
  let m := example_machine 1 in
  let m0 := Machine tt (handles m) [] in
  handles m !! 2 = Some None ∧ handles m !! 1 = Some (Some 7) ∧
  assign 2 1 m = assign_spec 2 1 m ∧
  (∀ m', assign 2 1 m = Ok tt m' → handles m' = <[2 := Some 7]> (handles m)) ∧
  assign (Info := Throwing) 2 1 m0 = Throw (Machine tt (handles m) [CallRetain 7]).
Proof.
  intros Throwing m m0. do 2 (split; [reflexivity|]).
  destruct (assign_copy_and_swap 2 1 None (Some 7) m eq_refl eq_refl)
    as (Heq & Hret & _).
  split; [exact Heq|]. split; [intros m' Hm'; by destruct (Hret m' Hm')|].
  destruct (assign_copy_and_swap (Info := Throwing) 2 1 None (Some 7) m0
              eq_refl eq_refl) as (_ & _ & Hfail).
  destruct (Hfail (Throw (Machine tt (handles m) [CallRetain 7]))) as [Hthrow _].
  - vm_compute. reflexivity.
  - intros m'. discriminate.
  - exact Hthrow.
Defined.

Lemma swap_exchanges_witness :
  let m := example_machine 1 in
  handles m !! 1 = Some (Some 7) ∧ handles m !! 2 = Some None ∧
  ∃ m', swap 1 2 m = Ok tt m' ∧
    handles m' !! 1 = Some None ∧ handles m' !! 2 = Some (Some 7) ∧
    objects m' = objects m ∧ calls m' = calls m.
Proof.
  intros m. do 2 (split; [reflexivity|]).
  destruct (swap_exchanges 1 2 (Some 7) None m eq_refl eq_refl)
    as (m' & Hs & Ha & Hb & _ & Ho & Hc).
  exists m'. auto.
Defined.

Lemma resetWithoutRelease_keeps_count_witness :
  let m := example_machine 1 in
  handles m !! 1 = Some (Some 7) ∧
  ∃ m', resetWithoutRelease 1 m = Ok tt m' ∧ operator_bool 1 m' = Ok false m' ∧
        objects m' = objects m ∧ calls m' = calls m.
Proof.
  intros m. split; [reflexivity|].
  destruct (resetWithoutRelease_keeps_count 1 (Some 7) m eq_refl)
    as (m' & Hr & _ & Hbool & _ & Ho & Hc).
  exists m'. auto.
Defined.

Lemma self_assignment_witness :
  let m := example_machine 1 in
  handles m !! 1 = Some (Some 7) ∧
  live (objects m) !! 7 = Some {| ref_cnt := 1 |} ∧
  (0 < 1 ≤ UINT_MAX)%Z ∧ ((1 < UINT_MAX)%Z ∨ NDEBUG = true) ∧
  assign 1 1 m =
    Ok tt (Machine (objects m) (handles m) (calls m ++ [CallRetain 7; CallRelease 7])%list) ∧
  assign 2 2 m = Ok tt m.
Proof.
  intros m. assert (Hc : (0 < 1 ≤ UINT_MAX)%Z) by (by vm_compute).
  assert (Hmax : (1 < UINT_MAX)%Z ∨ NDEBUG = true) by (left; by vm_compute).
  do 2 (split; [reflexivity|]). split; [exact Hc|]. split; [exact Hmax|].
  split.
  - destruct (self_assignment 1 m) as [_ Hobj].
    exact (Hobj 7 1%Z eq_refl eq_refl Hc Hmax).
  - destruct (self_assignment 2 m) as [Hnull _]. exact (Hnull eq_refl).
Defined.

(** Where C9 as first stated fails.  With the counter at [UINT_MAX],
    the parameter's acquire makes it wrap around to 0, and the release
    of the former content then fails the assertion.  With the counter
    at 0, a handle that refers to the object without being counted, the
    acquire takes it to 1 and the release destroys the object, which the
    handle still refers to. *)
Lemma self_assignment_counterexample :
  assign 1 1 (example_machine UINT_MAX) = Abort ∧
  outcome_map (λ m', (live (objects m') !! 7, deleted (objects m'), handles m' !! 1))
    (assign 1 1 (example_machine 0))
  = Ok tt (None, [7], Some (Some 7)).
Proof. split; vm_compute; reflexivity. Qed.

Lemma reset_idempotent_witness :
  let m := example_machine 1 in
  reset 2 m = Ok tt m ∧ (reset 1 ;; reset 1) m = reset 1 m.
Proof.
  intros m. destruct (reset_idempotent 2 m) as [Hnull _].
  destruct (reset_idempotent 1 m) as [_ Htwice].
  split; [exact (Hnull eq_refl)|exact Htwice].
Defined.
End More_examples.

(** * Further properties of the handle *)

(** Closing a goal that equates two machines built from the same parts. *)
Ltac same_machine :=
  unfold set_handles, set_objects, log_call; simpl; rewrite ?machine_eta; done.

(** ** Comparison *)

(** X1. For handles [A] and [B] within their lifetime, every comparison
    operator returns without changing the machine; [A == B] is true
    exactly when the two handles store the same pointer, whichever
    operand comes first; comparing one handle with the pointer the
    other one stores, in either order, gives the same answer; each
    [!=] gives the opposite answer; and a handle equals itself. *)
Theorem comparisons_compare_pointers {W} (A B : hid) (pa pb : ptr) (m : machine W) :
  handles m !! A = Some pa → handles m !! B = Some pb →
  ∃ e : bool, (e = true ↔ pa = pb) ∧
    operator_eq A B m = Ok e m ∧ operator_eq B A m = Ok e m ∧
    operator_ne A B m = Ok (negb e) m ∧
    operator_eq_raw A pb m = Ok e m ∧ raw_operator_eq pa B m = Ok e m ∧
    operator_ne_raw A pb m = Ok (negb e) m ∧
    raw_operator_ne pa B m = Ok (negb e) m ∧
    operator_eq A A m = Ok true m.
Proof.
  intros HA HB. exists (bool_decide (pa = pb)).
  split; [apply bool_decide_eq_true|].
  unfold operator_eq, operator_ne, operator_eq_raw, operator_ne_raw,
    raw_operator_eq, raw_operator_ne, get.
  rewrite !(bind_Ok (load A) _ m pa m) by prim.
  rewrite !(bind_Ok (load B) _ m pb m) by prim.
  rewrite !(bind_Ok (load A) _ m pa m) by prim.
  repeat split; try done.
  - unfold mret, M_ret. f_equal. apply bool_decide_ext. naive_solver.
  - unfold mret, M_ret. f_equal. by apply bool_decide_eq_true.
Qed.

(** X2. For a handle [A] within its lifetime, the four comparisons with
    [nullptr] return without changing the machine and agree with the
    [bool] conversion: [A == nullptr] and [nullptr == A] are its
    negation, [A != nullptr] and [nullptr != A] are its value; so they
    are true, resp. false, exactly when the stored pointer is null, and
    they agree with the comparison of [A] with a null raw pointer. *)
Theorem null_comparisons_follow_bool {W} (A : hid) (pa : ptr) (m : machine W) :
  handles m !! A = Some pa →
  ∃ b : bool, (b = false ↔ pa = None) ∧
    operator_bool A m = Ok b m ∧
    nullptr_operator_eq A m = Ok (negb b) m ∧
    operator_eq_nullptr A m = Ok (negb b) m ∧
    nullptr_operator_ne A m = Ok b m ∧
    operator_ne_nullptr A m = Ok b m ∧
    operator_eq_raw A None m = Ok (negb b) m ∧
    raw_operator_eq None A m = Ok (negb b) m.
Proof.
  intros HA. exists (if pa is Some _ then true else false).
  split; [destruct pa; naive_solver|].
  assert (Hbool : operator_bool A m = Ok (if pa is Some _ then true else false) m).
  { unfold operator_bool. by rewrite (bind_Ok (load A) _ m pa m) by prim. }
  assert (Heq : nullptr_operator_eq A m
                = Ok (negb (if pa is Some _ then true else false)) m).
  { unfold nullptr_operator_eq. by rewrite (bind_Ok _ _ _ _ _ Hbool). }
  unfold operator_ne_nullptr, nullptr_operator_ne, operator_eq_nullptr.
  rewrite !(bind_Ok _ _ _ _ _ Heq), negb_involutive.
  unfold operator_eq_raw, raw_operator_eq, get.
  rewrite !(bind_Ok (load A) _ m pa m) by prim.
  repeat split; try done; by destruct pa.
Qed.

(** ** [swap] *)

(** X4. On handles [a] and [b] within their lifetime, swapping twice
    gives back the machine exactly as it was; [a.swap(b)] and
    [b.swap(a)] end in the same machine; and a handle swapped with
    itself is unchanged. *)
Theorem swap_involutive {W} (a b : hid) (pa pb : ptr) (m : machine W) :
  handles m !! a = Some pa → handles m !! b = Some pb →
  (swap a b ;; swap a b) m = Ok tt m ∧
  swap a b m = swap b a m ∧
  swap a a m = Ok tt m.
Proof.
  intros Ha Hb.
  assert (Hself : ∀ (h : hid) (p : ptr), handles m !! h = Some p → swap h h m = Ok tt m).
  { intros h p Hh. rewrite (swap_eq _ _ p p) by done.
    rewrite insert_insert_eq, insert_id by done.
    same_machine. }
  split; [|split; [|by eapply Hself]].
  - rewrite (bind_Ok _ _ _ _ _ (swap_eq a b pa pb m Ha Hb)).
    destruct (decide (a = b)) as [->|Hne].
    + assert (pa = pb) as -> by congruence.
      rewrite (swap_eq _ _ pb pb) by (simpl; by simplify_map_eq).
      simpl. rewrite !insert_insert_eq, insert_id by done.
      same_machine.
    + rewrite (swap_eq _ _ pb pa) by (simpl; by simplify_map_eq).
      simpl. replace (<[a:=pa]> (<[b:=pb]> (<[a:=pb]> (<[b:=pa]> (handles m)))))
        with (handles m).
      { same_machine. }
      apply map_eq. intros i.
      destruct (decide (i = a)) as [->|]; [by simplify_map_eq|].
      destruct (decide (i = b)) as [->|]; by simplify_map_eq.
  - rewrite (swap_eq a b pa pb), (swap_eq b a pb pa) by done.
    destruct (decide (a = b)) as [->|Hne].
    + by assert (pa = pb) as -> by congruence.
    + by rewrite insert_insert_ne.
Qed.

Section Construction_and_comparison.
Context {W : Type} `{Info : IntrusiveRefCntPtrInfo W}.
Implicit Types (m : machine W) (h : hid) (p : ptr).

Lemma raw_Ok_holds h p m m1 :
  IntrusiveRefCntPtr_raw h p m = Ok tt m1 → handles m1 !! h = Some p.
Proof.
  intros Hraw. pose proof (raw_Ok_inv _ _ _ _ Hraw) as Hh.
  rewrite raw_eq in Hraw by done.
  destruct (acquire p m) as [[] m0| | |]; simplify_eq. simpl.
  by rewrite lookup_insert_eq.
Qed.

Lemma copy_Ok_holds h S m m1 :
  IntrusiveRefCntPtr_copy h S m = Ok tt m1 →
  ∃ p, handles m1 !! h = Some p ∧ handles m1 !! S = Some p.
Proof.
  intros Hcp. destruct (copy_Ok_inv _ _ _ _ Hcp) as [Hh [p HS]].
  rewrite (copy_eq _ _ p) in Hcp by done.
  destruct (acquire p m) as [[] m0| | |]; simplify_eq. simpl.
  exists p. assert (h ≠ S) by congruence. by simplify_map_eq.
Qed.
End Construction_and_comparison.

(** X3. What the constructors leave behind, as the comparison operators
    see it: a default-constructed handle equals [nullptr]; a handle
    constructed from a raw pointer equals that pointer, in either
    order; a copy, by either copy constructor, equals its source; after
    a move, by either move constructor, the new handle equals the
    pointer its source held and the source equals [nullptr]. *)
Theorem constructed_handles_compare {W} `{Info : IntrusiveRefCntPtrInfo W}
    (h : hid) (m m1 : machine W) :
  (IntrusiveRefCntPtr_default h m = Ok tt m1 →
     operator_eq_nullptr h m1 = Ok true m1) ∧
  (∀ p, IntrusiveRefCntPtr_raw h p m = Ok tt m1 →
     operator_eq_raw h p m1 = Ok true m1 ∧ raw_operator_eq p h m1 = Ok true m1) ∧
  (∀ S ctor, ctor = IntrusiveRefCntPtr_copy ∨ ctor = IntrusiveRefCntPtr_copy_convert →
     ctor h S m = Ok tt m1 →
     operator_eq h S m1 = Ok true m1 ∧ operator_ne h S m1 = Ok false m1) ∧
  (∀ S p ctor, ctor = IntrusiveRefCntPtr_move ∨ ctor = IntrusiveRefCntPtr_move_convert →
     handles m !! S = Some p → ctor h S m = Ok tt m1 →
     operator_eq_raw h p m1 = Ok true m1 ∧ operator_eq_nullptr S m1 = Ok true m1).
Proof.
  assert (Heq_raw : ∀ (m0 : machine W) p, handles m0 !! h = Some p →
            operator_eq_raw h p m0 = Ok true m0 ∧ raw_operator_eq p h m0 = Ok true m0).
  { intros m0 p Hh. unfold operator_eq_raw, raw_operator_eq, get.
    rewrite !(bind_Ok (load h) _ m0 p m0) by prim.
    unfold mret, M_ret. by rewrite bool_decide_eq_true_2. }
  assert (Hnull : ∀ (m0 : machine W) a, handles m0 !! a = Some None →
            operator_eq_nullptr a m0 = Ok true m0).
  { intros m0 a Ha. unfold operator_eq_nullptr, nullptr_operator_eq.
    assert (operator_bool a m0 = Ok false m0) as Hb.
    { unfold operator_bool. by rewrite (bind_Ok (load a) _ m0 None m0) by prim. }
    by rewrite (bind_Ok _ _ _ _ _ Hb). }
  split; [|split; [|split]].
  - rewrite default_eq. intros Hd. apply Hnull. by eapply raw_Ok_holds.
  - intros p Hraw. apply Heq_raw. by eapply raw_Ok_holds.
  - intros S ctor Hctor Hcp.
    assert (ctor = IntrusiveRefCntPtr_copy) as -> by (by destruct Hctor).
    destruct (copy_Ok_holds _ _ _ _ Hcp) as (p & Hh & HS).
    unfold operator_eq, operator_ne, get.
    rewrite !(bind_Ok (load h) _ m1 p m1) by prim.
    rewrite !(bind_Ok (load S) _ m1 p m1) by prim.
    unfold mret, M_ret. by rewrite bool_decide_eq_true_2.
  - intros S p ctor Hctor HS Hmv.
    assert (ctor = IntrusiveRefCntPtr_move) as -> by (by destruct Hctor).
    destruct (move_Ok_inv _ _ _ _ Hmv) as [Hh _].
    assert (h ≠ S) by congruence.
    rewrite (move_eq _ _ p) in Hmv by done. injection Hmv as <-. split.
    + apply Heq_raw. simpl. by simplify_map_eq.
    + apply Hnull. simpl. by simplify_map_eq.
Qed.

(** ** Assignment from an rvalue and from a raw pointer *)

Section By_value.
Context {W : Type} `{Info : IntrusiveRefCntPtrInfo W}.
Implicit Types (m : machine W) (h a b : hid) (p : ptr).

(** The body of [operator=] and the destruction of its parameter [S],
    once [S] holds [p]: [a] takes [p] and gives up what it held. *)
Lemma parameter_consumed a S pa p m :
  handles m !! a = Some pa → handles m !! S = Some p → a ≠ S →
  (operator_assign a S ;; IntrusiveRefCntPtr_dtor S) m =
  match relinquish pa m with
  | Ok _ m' => Ok tt (set_handles (delete S (<[a := p]> (handles m))) m')
  | Throw _ => Abort
  | r => r
  end.
Proof.
  intros Ha HS Hne. unfold operator_assign.
  rewrite (bind_Ok _ _ _ _ _ (swap_eq a S pa p m Ha HS)).
  rewrite (dtor_eq _ pa) by (simpl; by simplify_map_eq).
  rewrite relinquish_frame. simpl.
  destruct (relinquish pa m) as [[] m'| | |]; simpl; try done.
  by rewrite !(delete_insert_ne _ S a), delete_insert_eq by done.
Qed.

Lemma assign_raw_eq a pa p m :
  handles m !! a = Some pa →
  assign_raw a p m =
  (acquire p ;; old ← load a; store a p ;; noexcept (relinquish old)) m.
Proof.
  intros Ha. unfold assign_raw.
  destruct (temporary_fresh a a m) as (HS & HaS & _).
  set (S := temporary a a m) in *.
  rewrite (bind_unfold (IntrusiveRefCntPtr_raw S p)), (bind_unfold (acquire p)).
  rewrite raw_eq by done.
  pose proof (acquire_handles p m _ eq_refl) as Hm.
  destruct (acquire p m) as [[] m1|m1| |]; try done.
  rewrite (parameter_consumed a S pa p) by (simpl; by simplify_map_eq).
  rewrite (bind_Ok (load a) _ m1 pa m1) by (apply load_Ok; by rewrite Hm).
  erewrite (bind_Ok (store a p)) by (eapply store_Ok; by rewrite Hm).
  unfold noexcept. rewrite !relinquish_frame. simpl. rewrite Hm.
  destruct (relinquish pa m1) as [[] m2|m2| |]; simpl; try done.
  by rewrite delete_insert_ne, delete_insert_eq, delete_id by done.
Qed.
End By_value.

(** X5. Assignment from an rvalue, [a = std::move(b)], on handles within
    their lifetime.  For distinct handles it retains nothing: it ends
    as the release of what [a] held ends (an exception from it ends in
    [std::terminate]), and on return [a] holds what [b] held, [b] is
    null, every other handle is as it was and the only call made is
    that release.  For [b] the handle [a] itself, it returns with the
    machine exactly as it was. *)
Theorem move_assignment {W} `{Info : IntrusiveRefCntPtrInfo W}
    (a b : hid) (pa pb : ptr) (m : machine W) :
  handles m !! a = Some pa → handles m !! b = Some pb →
  (a ≠ b →
     assign_move a b m =
     match relinquish pa m with
     | Ok _ m' => Ok tt (set_handles (<[a := pb]> (<[b := None]> (handles m))) m')
     | Throw _ => Abort
     | r => r
     end ∧
     ∀ m', assign_move a b m = Ok tt m' → calls m' = calls m ++ released pa) ∧
  (a = b → assign_move a b m = Ok tt m).
Proof.
  intros Ha Hb. unfold assign_move.
  destruct (temporary_fresh a b m) as (HS & HaS & HbS).
  set (S := temporary a b m) in *.
  rewrite (bind_Ok _ _ _ _ _ (move_eq S b pb m HS Hb)).
  split.
  - intros Hne.
    assert (Heq : (operator_assign a S ;; IntrusiveRefCntPtr_dtor S)
              (set_handles (<[b:=None]> (<[S:=pb]> (handles m))) m) =
            match relinquish pa m with
            | Ok _ m' => Ok tt (set_handles (<[a := pb]> (<[b := None]> (handles m))) m')
            | Throw _ => Abort
            | r => r
            end).
    { rewrite (parameter_consumed a S pa pb) by (simpl; by simplify_map_eq).
      rewrite relinquish_frame. simpl.
      destruct (relinquish pa m) as [[] m'| | |]; simpl; try done.
      unfold set_handles. simpl. do 2 f_equal. apply map_eq. intros i.
      destruct (decide (i = S)) as [->|]; [by simplify_map_eq|].
      destruct (decide (i = a)) as [->|]; [by simplify_map_eq|].
      destruct (decide (i = b)) as [->|]; by simplify_map_eq. }
    split; [exact Heq|]. intros m'. rewrite Heq.
    destruct (relinquish pa m) as [[] m0| | |] eqn:Hrel; try done.
    intros [= <-]. simpl. by eapply relinquish_calls.
  - intros <-. assert (pa = pb) as <- by congruence.
    rewrite (parameter_consumed a S None pa) by (simpl; by simplify_map_eq).
    simpl. replace (delete S (<[a:=pa]> (<[a:=None]> (<[S:=pa]> (handles m)))))
      with (handles m); [same_machine|].
    apply map_eq. intros i.
    destruct (decide (i = S)) as [->|]; [by simplify_map_eq|].
    destruct (decide (i = a)) as [->|]; by simplify_map_eq.
Qed.

(** X8. For handles [a] and [b] within their lifetime, assigning to [a]
    the raw pointer that [b] stores, [a = b.get()], ends exactly as the
    assignment [a = b] does: same outcome and, on return or on an
    exception, the same machine. *)
Theorem assign_raw_as_assign {W} `{Info : IntrusiveRefCntPtrInfo W}
    (a b : hid) (pa pb : ptr) (m : machine W) :
  handles m !! a = Some pa → handles m !! b = Some pb →
  (p ← get b; assign_raw a p) m = assign a b m.
Proof.
  intros Ha Hb. unfold get. rewrite (bind_Ok (load b) _ m pb m) by prim.
  rewrite (assign_raw_eq _ pa), (assign_eq _ _ pa pb) by done.
  unfold assign_spec. by rewrite (bind_Ok (load b) _ m pb m) by prim.
Qed.

(** X6. Copying a null handle, by either copy constructor, into vacant
    storage returns with a null handle, makes no call and leaves the
    objects unchanged; destroying that copy makes no call either and
    gives back the machine exactly as it was before the copy. *)
Theorem null_copy_round_trip {W} `{Info : IntrusiveRefCntPtrInfo W}
    (h S : hid) (m : machine W) :
  handles m !! S = Some None → handles m !! h = None →
  ∀ ctor, ctor = IntrusiveRefCntPtr_copy ∨ ctor = IntrusiveRefCntPtr_copy_convert →
  ∃ m1, ctor h S m = Ok tt m1 ∧
    get h m1 = Ok None m1 ∧ operator_bool h m1 = Ok false m1 ∧
    objects m1 = objects m ∧ calls m1 = calls m ∧
    IntrusiveRefCntPtr_dtor h m1 = Ok tt m.
Proof.
  intros HS Hh ctor Hctor.
  assert (ctor = IntrusiveRefCntPtr_copy) as -> by (by destruct Hctor).
  exists (set_handles (<[h := None]> (handles m)) m).
  split; [by rewrite (copy_eq _ _ None) by done|].
  unfold get, operator_bool.
  rewrite (bind_Ok (load h) _ _ None (set_handles (<[h := None]> (handles m)) m)) by prim.
  repeat split; try done; [prim|].
  rewrite (dtor_eq _ None) by (simpl; by simplify_map_eq). simpl.
  rewrite delete_insert_eq, delete_id by done. same_machine.
Qed.

(** ** [RefCountedBase] at the ends of the counter's range *)

(** X10. The counter at the ends of its range.  [Retain()] on a counter
    at [UINT_MAX] returns with the counter at 0, the object live and
    nothing destroyed.  With [assert] compiled out, [Release()] on a
    counter at 0 returns with the counter at [UINT_MAX], the object
    live and nothing destroyed. *)
Theorem counter_wraps_around {build : Build} (this : loc) (h : heap) :
  (live h !! this = Some {| ref_cnt := UINT_MAX |} →
   ∃ h', Retain this h = Ok tt h' ∧
     live h' !! this = Some {| ref_cnt := 0 |} ∧ deleted h' = deleted h) ∧
  (live h !! this = Some {| ref_cnt := 0 |} → NDEBUG = true →
   ∃ h', Release this h = Ok tt h' ∧
     live h' !! this = Some {| ref_cnt := UINT_MAX |} ∧ deleted h' = deleted h).
Proof.
  split.
  - intros Hl. eexists. split; [by eapply Retain_live|]. simpl.
    by rewrite lookup_insert_eq.
  - intros Hl Hb. unfold Release. rewrite Hl, Hb. simpl.
    eexists. split; [done|]. simpl. by rewrite lookup_insert_eq.
Qed.

(** X11. [Retain()] and [Release()] undo each other on a live object
    whose counter [c] is an [unsigned] below [UINT_MAX]: for [0 < c], a
    [Retain()] followed by a [Release()] gives back the heap exactly as
    it was; for [1 < c], so does a [Release()] followed by a
    [Retain()].  Neither pair destroys anything or touches another
    object. *)
Theorem Retain_Release_inverse {build : Build} (this : loc) (c : Z) (h : heap) :
  live h !! this = Some {| ref_cnt := c |} → 0 < c < UINT_MAX →
  (∃ h1, Retain this h = Ok tt h1 ∧ Release this h1 = Ok tt h) ∧
  (1 < c → ∃ h1, Release this h = Ok tt h1 ∧ Retain this h1 = Ok tt h).
Proof.
  intros Hl Hc. split.
  - apply (Retain_Release this c h Hl); [lia|left; lia].
  - intros Hc1. eexists. split.
    + eapply Release_shared; [done|simpl; lia].
    + unfold Retain. simpl. rewrite lookup_insert_eq. simpl.
      replace (c - 1 + 1) with c by lia. rewrite to_unsigned_id by lia.
      by rewrite insert_insert_eq, (insert_id _ _ _ Hl), heap_eta.
Qed.

(** ** Destroying and clearing a handle *)

Section Clearing.
Context {build : Build}.
Implicit Types (m : machine heap) (a h : hid) (p : ptr).

End Clearing.



(** X13. A handle constructed from a raw pointer to a live object that
    nothing owns yet (counter 0) and then destroyed takes the object
    with it: the constructor and the destructor both return, the object
    has been destroyed, once, and the handles are as they were. *)
Theorem temporary_handle_destroys_unowned {build : Build} (h : hid) (obj : loc)
    (m : machine heap) :
  handles m !! h = None →
  live (objects m) !! obj = Some {| ref_cnt := 0 |} →
  ∃ m', (IntrusiveRefCntPtr_raw h (Some obj) ;; IntrusiveRefCntPtr_dtor h) m
          = Ok tt m' ∧
    live (objects m') !! obj = None ∧
    deleted (objects m') = deleted (objects m) ++ [obj] ∧
    handles m' = handles m ∧
    calls m' = calls m ++ [CallRetain obj; CallRelease obj].
Proof.
  intros Hh Hobj. rewrite bind_unfold, raw_eq by done. simpl.
  erewrite invoke_Ok by (by eapply Retain_live). simpl.
  rewrite (dtor_eq _ (Some obj)) by (simpl; by simplify_map_eq). simpl.
  erewrite invoke_Ok; last first.
  { simpl. eapply Release_last; simpl; [by rewrite lookup_insert_eq|done]. }
  eexists. split; [done|]. simpl.
  rewrite !delete_insert_eq, (delete_id _ _ Hh), <- app_assoc.
  repeat split; try done. apply lookup_delete_eq.
Qed.

(** ** Handles over several objects *)

Lemma counted_fresh_objects (U : gset positive) : counted U (fresh_objects U).
Proof.
  split; simpl.
  - intros l o Hl. apply lookup_gset_to_gmap_Some in Hl as [Hl <-].
    rewrite owners_empty.
    repeat split; try done.
    + by intros ?%elem_of_nil.
    + intros; lia.
    + by intros ?%elem_of_nil.
  - intros l Hl. apply lookup_gset_to_gmap_None in Hl. by rewrite owners_empty.
  - intros l Hl. by apply elem_of_nil in Hl.
  - constructor.
Qed.


(** X12. Handles never dangle.  After any sequence of at most
    [UINT_MAX] handle operations that returns, run from a machine with
    any number of objects with counter 0 and no handle: through every
    handle that is non-null, [operator*] is defined and yields the
    object whose address [operator->] and [get] return, an initial
    object that is live.  Through a null handle [operator*] is
    undefined. *)
Theorem handles_never_dangle {build : Build} (U : gset positive) (ops : list op)
    (m : machine heap) (h : hid) (p : ptr) :
  Z.of_nat (length ops) ≤ UINT_MAX →
  run ops (fresh_objects U) = Ok tt m →
  handles m !! h = Some p →
  operator_arrow h m = Ok p m ∧ get h m = Ok p m ∧
  match p with
  | Some obj =>
      obj ∈ U ∧ is_Some (live (objects m) !! obj) ∧ operator_star h m = Ok obj m
  | None => operator_star h m = Undef
  end.
Proof.
  intros Hlen Hrun Hh. pose proof (counted_fresh_objects U) as Hinit.
  assert (size (handles (fresh_objects U)) = 0%nat) as Hsz by apply map_size_empty.
  destruct (run_counted U ops _ m Hinit) as [Hm _]; [lia|done|].
  unfold operator_arrow, get, operator_star.
  rewrite (bind_Ok (load h) _ m p m) by prim.
  split; [by apply load_Ok|]. split; [by apply load_Ok|].
  destruct p as [obj|]; [|done].
  destruct (owned_live U m h obj Hm Hh) as [o Hl].
  split; [by destruct (counted_live _ _ Hm _ _ Hl)|]. split; [eauto|].
  unfold indirection. by rewrite Hl.
Qed.

(** ** Handing ownership over *)


(** X16. Moving is copying and destroying the source, without the
    calls.  For a handle [S] that refers to a live object whose counter
    [c] counts at least that handle and is below [UINT_MAX] unless
    [assert] is compiled out: move-constructing [h] from [S] and then
    destroying [S] makes no call, copy-constructing [h] from [S] and
    then destroying [S] makes a retain and a release, and both return
    with the objects exactly as they were and with [h] in the place of
    [S] among the handles. *)
Theorem move_is_copy_then_destroy {build : Build} (h S : hid) (obj : loc) (c : Z)
    (m : machine heap) :
  handles m !! S = Some (Some obj) → handles m !! h = None →
  live (objects m) !! obj = Some {| ref_cnt := c |} →
  0 < c ≤ UINT_MAX → c < UINT_MAX ∨ NDEBUG = true →
  let H' := <[h := Some obj]> (delete S (handles m)) in
  (IntrusiveRefCntPtr_move h S ;; IntrusiveRefCntPtr_dtor S) m =
    Ok tt (Machine (objects m) H' (calls m)) ∧
  (IntrusiveRefCntPtr_copy h S ;; IntrusiveRefCntPtr_dtor S) m =
    Ok tt (Machine (objects m) H' (calls m ++ [CallRetain obj; CallRelease obj])).
Proof.
  intros HS Hh Hobj Hc Hmax H'. assert (h ≠ S) by congruence.
  destruct (Retain_Release obj c (objects m)) as (h1 & Hret & Hrel); [done..|].
  assert (HH : delete S (<[h := Some obj]> (handles m)) = H').
  { subst H'. by rewrite delete_insert_ne. }
  split.
  - rewrite (bind_Ok _ _ _ _ _ (move_eq h S _ m Hh HS)).
    rewrite (dtor_eq _ None) by (simpl; by simplify_map_eq). simpl.
    unfold set_handles. simpl. do 2 f_equal.
    by rewrite delete_insert_eq.
  - rewrite bind_unfold, (copy_eq _ _ (Some obj)) by done. simpl.
    erewrite invoke_Ok by done.
    rewrite (dtor_eq _ (Some obj)) by (simpl; by simplify_map_eq). simpl.
    erewrite invoke_Ok by done.
    unfold set_handles, set_objects, log_call. simpl.
    by rewrite HH, <- app_assoc.
Qed.

(** ** The further properties on concrete machines *)

Section Further_examples.
Local Existing Instance checked.
Local Open Scope positive_scope.

Lemma comparisons_compare_pointers_witness :
  let m := example_machine 1 in
  handles m !! 1 = Some (Some 7) ∧ handles m !! 2 = Some None ∧
  operator_eq 1 2 m = Ok false m ∧ operator_ne 1 2 m = Ok true m ∧
  raw_operator_eq (Some 7) 2 m = Ok false m.
Proof.
  intros m. do 2 (split; [reflexivity|]).
  destruct (comparisons_compare_pointers 1 2 (Some 7) None m eq_refl eq_refl)
    as (e & He & Heq & _ & Hne & _ & Hraw & _).
  assert (e = false) as -> by (destruct e; [by destruct He as [He _]; specialize (He eq_refl)|done]).
  auto.
Defined.

Lemma null_comparisons_follow_bool_witness :
  let m := example_machine 1 in
  handles m !! 2 = Some None ∧
  operator_bool 2 m = Ok false m ∧ operator_eq_nullptr 2 m = Ok true m ∧
  nullptr_operator_ne 2 m = Ok false m.
Proof.
  intros m. split; [reflexivity|].
  destruct (null_comparisons_follow_bool 2 None m eq_refl)
    as (b & Hb & Hbool & _ & Heq & Hne & _).
  assert (b = false) as -> by (by apply Hb).
  auto.
Defined.

Lemma constructed_handles_compare_witness :
  let m := example_machine 1 in
  let m1 := Machine (Heap {[ 7 := {| ref_cnt := 2 |} ]} [])
              {[ 1 := Some 7; 2 := None; 3 := Some 7 ]} [CallRetain 7] in
  IntrusiveRefCntPtr_copy 3 1 m = Ok tt m1 ∧
  operator_eq 3 1 m1 = Ok true m1 ∧ operator_ne 3 1 m1 = Ok false m1.
Proof.
  intros m m1.
  assert (Hcopy : IntrusiveRefCntPtr_copy 3 1 m = Ok tt m1) by (vm_compute; reflexivity).
  split; [exact Hcopy|].
  destruct (constructed_handles_compare 3 m m1) as (_ & _ & Hcp & _).
  exact (Hcp 1 IntrusiveRefCntPtr_copy (or_introl eq_refl) Hcopy).
Defined.

Lemma swap_involutive_witness :
  let m := example_machine 1 in
  handles m !! 1 = Some (Some 7) ∧ handles m !! 2 = Some None ∧
  (swap 1 2 ;; swap 1 2) m = Ok tt m ∧ swap 1 2 m = swap 2 1 m.
Proof.
  intros m. do 2 (split; [reflexivity|]).
  destruct (swap_involutive 1 2 (Some 7) None m eq_refl eq_refl) as (Htwice & Hcomm & _).
  auto.
Defined.

Lemma move_assignment_witness :
  let m := example_machine 1 in
  handles m !! 2 = Some None ∧ handles m !! 1 = Some (Some 7) ∧ 2 ≠ 1 ∧
  assign_move 2 1 m =
    Ok tt (set_handles (<[2 := Some 7]> (<[1 := None]> (handles m))) m) ∧
  assign_move 1 1 m = Ok tt m.
Proof.
  intros m. do 2 (split; [reflexivity|]). split; [discriminate|].
  destruct (move_assignment 2 1 None (Some 7) m eq_refl eq_refl) as [Hne _].
  destruct (Hne ltac:(discriminate)) as [Heq _].
  destruct (move_assignment 1 1 (Some 7) (Some 7) m eq_refl eq_refl) as [_ Hself].
  split; [exact Heq|exact (Hself eq_refl)].
Defined.

Lemma null_copy_round_trip_witness :
  let m := example_machine 1 in
  handles m !! 2 = Some None ∧ handles m !! 3 = None ∧
  ∃ m1, IntrusiveRefCntPtr_copy_convert 3 2 m = Ok tt m1 ∧
        calls m1 = calls m ∧ IntrusiveRefCntPtr_dtor 3 m1 = Ok tt m.
Proof.
  intros m. do 2 (split; [reflexivity|]).
  destruct (null_copy_round_trip 3 2 m eq_refl eq_refl
              IntrusiveRefCntPtr_copy_convert (or_intror eq_refl))
    as (m1 & Hcp & _ & _ & _ & Hcalls & Hdtor).
  exists m1. auto.
Defined.

Lemma assign_raw_as_assign_witness :
  let m := example_machine 1 in
  handles m !! 2 = Some None ∧ handles m !! 1 = Some (Some 7) ∧
  (p ← get 1; assign_raw 2 p) m = assign 2 1 m.
Proof.
  intros m. do 2 (split; [reflexivity|]).
  exact (assign_raw_as_assign 2 1 None (Some 7) m eq_refl eq_refl).
Defined.


Lemma counter_wraps_around_witness :
  let h := Heap {[ 7 := {| ref_cnt := UINT_MAX |} ]} [] in
  let h0 := Heap {[ 7 := {| ref_cnt := 0 |} ]} [] in
  (∃ h', Retain 7 h = Ok tt h' ∧ live h' !! 7 = Some {| ref_cnt := 0 |}) ∧
  (∃ h', Release (build := true) 7 h0 = Ok tt h' ∧
         live h' !! 7 = Some {| ref_cnt := UINT_MAX |}).
Proof.
  intros h h0. split.
  - destruct (counter_wraps_around 7 h) as [Hret _].
    destruct (Hret eq_refl) as (h' & ? & ? & _). eauto.
  - destruct (counter_wraps_around (build := true) 7 h0) as [_ Hrel].
    destruct (Hrel eq_refl eq_refl) as (h' & ? & ? & _). eauto.
Defined.

Lemma Retain_Release_inverse_witness :
  let h := Heap {[ 7 := {| ref_cnt := 2 |} ]} [] in
  live h !! 7 = Some {| ref_cnt := 2 |} ∧ (0 < 2 < UINT_MAX)%Z ∧
  (∃ h1, Retain 7 h = Ok tt h1 ∧ Release 7 h1 = Ok tt h) ∧
  (∃ h1, Release 7 h = Ok tt h1 ∧ Retain 7 h1 = Ok tt h).
Proof.
  intros h. assert (Hc : (0 < 2 < UINT_MAX)%Z) by (by vm_compute).
  split; [reflexivity|]. split; [exact Hc|].
  destruct (Retain_Release_inverse 7 2%Z h eq_refl Hc) as [H1 H2].
  split; [exact H1|]. apply H2. reflexivity.
Defined.

Lemma temporary_handle_destroys_unowned_witness :
  let m := fresh_object 7 in
  handles m !! 1 = None ∧ live (objects m) !! 7 = Some {| ref_cnt := 0 |} ∧
  ∃ m', (IntrusiveRefCntPtr_raw 1 (Some 7) ;; IntrusiveRefCntPtr_dtor 1) m = Ok tt m' ∧
        live (objects m') !! 7 = None ∧ deleted (objects m') = [7].
Proof.
  intros m. do 2 (split; [reflexivity|]).
  destruct (temporary_handle_destroys_unowned 1 7 m eq_refl eq_refl)
    as (m' & Hrun & Hgone & Hdel & _).
  exists m'. auto.
Defined.


Lemma handles_never_dangle_witness :
  let ops := [FromRaw 1 (Some 7); Copy 2 1; Destroy 1] in
  let m := Machine (Heap {[ 7 := {| ref_cnt := 1 |} ]} []) {[ 2 := Some 7 ]}
             [CallRetain 7; CallRetain 7; CallRelease 7] in
  (Z.of_nat (length ops) ≤ UINT_MAX)%Z ∧
  run ops (fresh_objects {[7]}) = Ok tt m ∧ handles m !! 2 = Some (Some 7) ∧
  operator_star 2 m = Ok 7 m.
Proof.
  intros ops m.
  assert (Hlen : (Z.of_nat (length ops) ≤ UINT_MAX)%Z) by (by vm_compute).
  assert (Hrun : run ops (fresh_objects {[7]}) = Ok tt m) by (vm_compute; reflexivity).
  split; [exact Hlen|]. split; [exact Hrun|]. split; [reflexivity|].
  destruct (handles_never_dangle {[7]} ops m 2 (Some 7) Hlen Hrun eq_refl)
    as (_ & _ & _ & _ & Hstar).
  exact Hstar.
Defined.

Lemma move_is_copy_then_destroy_witness :
  let m := example_machine 1 in
  handles m !! 1 = Some (Some 7) ∧ handles m !! 3 = None ∧
  live (objects m) !! 7 = Some {| ref_cnt := 1 |} ∧ (0 < 1 ≤ UINT_MAX)%Z ∧
  ((1 < UINT_MAX)%Z ∨ NDEBUG = true) ∧
  (IntrusiveRefCntPtr_move 3 1 ;; IntrusiveRefCntPtr_dtor 1) m =
    Ok tt (Machine (objects m) (<[3 := Some 7]> (delete 1 (handles m))) (calls m)) ∧
  (IntrusiveRefCntPtr_copy 3 1 ;; IntrusiveRefCntPtr_dtor 1) m =
    Ok tt (Machine (objects m) (<[3 := Some 7]> (delete 1 (handles m)))
             (calls m ++ [CallRetain 7; CallRelease 7])%list).
Proof.
  intros m. assert (Hc : (0 < 1 ≤ UINT_MAX)%Z) by (by vm_compute).
  assert (Hmax : (1 < UINT_MAX)%Z ∨ NDEBUG = true) by (left; by vm_compute).
  do 3 (split; [reflexivity|]). split; [exact Hc|]. split; [exact Hmax|].
  exact (move_is_copy_then_destroy 3 1 7 1%Z m eq_refl eq_refl eq_refl Hc Hmax).
Defined.
End Further_examples.
